(** * pko-t5: distributed evaluation and fold control of [pkot5/klue/finetuning.py]

    A shallow embedding of the coordination code of [finetuning.py]:
    - the shard evaluator loop of [Metrics.on_evaluate] (lines 48-63),
    - the rank-keyed publish / barrier / collect protocol over the shared
      key-value store (lines 65-71),
    - the call of the task metric on the merged result (lines 72-74),
    - the fold loop of [train] with its best-record selection and the
      rank-0 result file (lines 98-145).

    External collaborators are parameters: the model's [generate], the task
    processor's [compute_metrics], the trainer, and the [pickle] codec.
    Metric values are finite floats in the program; they are embedded as the
    rationals they denote, on which [>=] is the same comparison. *)

From Stdlib Require Import QArith Ascii.
From stdpp Require Import base option list gmap strings pretty.

Close Scope Q_scope.
Open Scope string_scope.
Open Scope list_scope.
Open Scope stdpp_scope.

(** ** Faults

    Python exceptions that the modelled lines can raise.  None of them is
    caught anywhere in [finetuning.py]. *)
Inductive fault : Type :=
  | TypeError        (* pickle.loads(None): the store has no such key *)
  | UnpicklingError  (* pickle.loads on bytes that are no pickled pair *)
  | AssertionError   (* line 61 *)
  | KeyError         (* metric[k] for an absent key, line 138 *)
  | AttributeError   (* best_metric.items() on None, line 143 *)
  | OtherError (name : string).

Abbreviation result A := (fault + A)%type.

Definition bytes : Type := list Byte.byte.

(** [f"{i}"] for a rank: the decimal rendering of a non-negative integer. *)
Definition rank_key (i : nat) : string := pretty i.

(** ** Metric records

    A Fold Metric Record is a Python dict from metric name to value; its
    insertion order is the order of [keys()] and [items()]. *)
Definition metric_record : Type := list (string * Q).

Definition keys (d : metric_record) : list string := d.*1.

(** [d[k]]: [None] stands for the [KeyError]. *)
Fixpoint dict_get (k : string) (d : metric_record) : option Q :=
  match d with
  | [] => None
  | (k', v) :: rest => if decide (k' = k) then Some v else dict_get k rest
  end.

(** ** The store monad

    The evaluation callback threads the shared store and may raise.  State
    changes made before a fault stay in place, as in Python. *)
Section Store.
Context {Logit Score : Type}.

(** What a process does to its collaborators, in program order. *)
Inductive event : Type :=
  | EvSet (key : string) (value : bytes)
  | EvGet (key : string)
  | EvBarrier
  | EvComputeMetrics (logits : list Logit) (output_scores : option (list Score)).

Record world : Type := World {
  redis : gmap string bytes;
  trace : list event;
}.

Definition M (A : Type) : Type := world → world * result A.

Definition ret {A} (a : A) : M A := λ w, (w, inr a).
Definition raise {A} (e : fault) : M A := λ w, (w, inl e).
Definition bind {A B} (m : M A) (k : A → M B) : M B :=
  λ w, match m w with
       | (w', inr a) => k a w'
       | (w', inl e) => (w', inl e)
       end.
Definition lift {A} (r : result A) : M A := λ w, (w, r).

Definition emit (ev : event) : M unit :=
  λ w, (World (redis w) (trace w ++ [ev]), inr tt).

(** [r.set(key, value)]: overwrites whatever the key held. *)
Definition redis_set (key : string) (value : bytes) : M unit :=
  λ w, (World (<[key := value]> (redis w)) (trace w ++ [EvSet key value]), inr tt).

(** [r.get(key)]: [None] for an absent key. *)
Definition redis_get (key : string) : M (option bytes) :=
  λ w, (World (redis w) (trace w ++ [EvGet key]), inr (redis w !! key)).

(** [dist.barrier()] as one process sees it: when it returns, the store is
    whatever the other processes have made of it in the meantime. *)
Definition dist_barrier (others : gmap string bytes → gmap string bytes) : M unit :=
  λ w, (World (others (redis w)) (trace w ++ [EvBarrier]), inr tt).
End Store.

Arguments event : clear implicits.
Arguments world : clear implicits.
Arguments M : clear implicits.

#[global] Instance M_ret {Logit Score} : MRet (M Logit Score) := @ret Logit Score.
#[global] Instance M_bind {Logit Score} : MBind (M Logit Score) :=
  λ A B k m, bind m k.

(** ** [Metrics.on_evaluate] *)
Section Metrics.
Context {Logit Score Row Entries : Type}.
Abbreviation partial := (list Logit * list Score)%type.
Abbreviation M := (M Logit Score).

(** One collated batch: [data['input_ids']] and [data['attention_mask']],
    a row per example. *)
Record batch : Type := Batch {
  input_ids : list Row;
  attention_mask : list Row;
}.

(** What [model.generate(..., output_scores=True, return_dict_in_generate=True)]
    returns: [output.sequences] and [output.sequences_scores]. *)
Record generation : Type := Generation {
  sequences : list Logit;
  sequences_scores : list Score;
}.

(** [self.processor]: its task name and its metric formula. *)
Record processor : Type := Processor {
  task : string;
  compute_metrics : list Logit → Entries → option (list Score) → result metric_record;
}.

(** The [pickle] codec on the two-element list [[all_logits, all_scores]]. *)
Variable pickle_dumps : partial → bytes.
Variable pickle_loads_bytes : bytes → option partial.

(** Line 59: [self.processor.task == 'mrc' or self.processor.task == 'vinca']. *)
Definition wants_scores (p : processor) : bool :=
  bool_decide (task p = "mrc") || bool_decide (task p = "vinca").

(** Lines 49-63, the body of the loop over the dataloader. *)
Definition eval_batch (p : processor) (model : batch → generation)
    (acc : partial) (data : batch) : result partial :=
  let output := model data in
  let logits := sequences output in
  let all_scores :=
    if wants_scores p then acc.2 ++ sequences_scores output else acc.2 in
  if decide (length logits = length (input_ids data))
  then inr (acc.1 ++ logits, all_scores)
  else inl AssertionError.

(** Lines 48-63: [for data in tqdm(eval_dataloader)]. *)
Fixpoint eval_loop (p : processor) (model : batch → generation)
    (eval_dataloader : list batch) (acc : partial) : result partial :=
  match eval_dataloader with
  | [] => inr acc
  | data :: rest =>
      match eval_batch p model acc data with
      | inl e => inl e
      | inr acc' => eval_loop p model rest acc'
      end
  end.

(** Number of examples of the shard behind a dataloader. *)
Definition shard_size (eval_dataloader : list batch) : nat :=
  sum_list (length ∘ input_ids <$> eval_dataloader).

(** [pickle.loads(v)] followed by the unpacking [logits, scores = ...]. *)
Definition pickle_loads (v : option bytes) : M partial :=
  match v with
  | None => raise TypeError
  | Some b =>
      match pickle_loads_bytes b with
      | Some x => ret x
      | None => raise UnpicklingError
      end
  end.

(** Line 65: [self.r.set(f"{dist.get_rank()}", pickle.dumps([all_logits, all_scores]))]. *)
Definition publish (rank : nat) (x : partial) : M unit :=
  redis_set (rank_key rank) (pickle_dumps x).

(** Line 69, right-hand side: [pickle.loads(self.r.get(f"{i}"))]. *)
Definition read_slot (i : nat) : M partial :=
  v ← redis_get (rank_key i);
  pickle_loads v.

(** Lines 68-71, for the ranks still to be read. *)
Fixpoint collect_loop (ranks : list nat) (acc : partial) : M partial :=
  match ranks with
  | [] => ret acc
  | i :: rest =>
      '(logits, scores) ← read_slot i;
      collect_loop rest (acc.1 ++ logits, acc.2 ++ scores)
  end.

(** Lines 67-71: [for i in range(dist.get_world_size())]. *)
Definition collect (world_size : nat) : M partial :=
  collect_loop (seq 0 world_size) ([], []).

(** Lines 39-65: evaluate the shard and publish the partial result. *)
Definition on_evaluate_shard (p : processor) (model : batch → generation)
    (eval_dataloader : list batch) (rank : nat) : M unit :=
  x ← lift (eval_loop p model eval_dataloader ([], []));
  publish rank x.

(** Lines 72-73: [if len(all_scores) == 0: all_scores = None]. *)
Definition output_scores_arg (all_scores : list Score) : option (list Score) :=
  if decide (length all_scores = 0) then None else Some all_scores.

(** Lines 67-74: merge every slot, call the task metric, append to
    [self.metrics]. *)
Definition on_evaluate_merge (p : processor) (entries : Entries)
    (self_metrics : list metric_record) (world_size : nat)
    : M (list metric_record) :=
  '(all_logits, all_scores) ← collect world_size;
  let all_scores := output_scores_arg all_scores in
  _ ← emit (EvComputeMetrics all_logits all_scores);
  m ← lift (compute_metrics p all_logits entries all_scores);
  mret (self_metrics ++ [m]).

(** [Metrics.on_evaluate] in one process of a group of [world_size]. *)
Definition on_evaluate (p : processor) (entries : Entries)
    (self_metrics : list metric_record) (model : batch → generation)
    (eval_dataloader : list batch) (rank world_size : nat)
    (others : gmap string bytes → gmap string bytes)
    : M (list metric_record) :=
  _ ← on_evaluate_shard p model eval_dataloader rank;
  _ ← dist_barrier others;
  on_evaluate_merge p entries self_metrics world_size.

(** ** The evaluation round of the whole group

    Every process holds its partial result, publishes it, waits at the
    barrier, and collects once every process has arrived.  After the
    barrier no process writes to the store again in the round, so a
    process's reads are taken as one step. *)
Inductive phase : Type :=
  | Evaluated (x : partial)          (* line 65 comes next *)
  | AtBarrier                        (* blocked in line 66 *)
  | Collected (r : result partial).  (* lines 67-71 are done *)

Record cluster : Type := Cluster {
  shared : world Logit Score;
  procs : list phase;
}.

Definition arrived (ph : phase) : bool :=
  match ph with Evaluated _ => false | _ => true end.

Inductive step : cluster → cluster → Prop :=
  | step_publish c rank x :
      procs c !! rank = Some (Evaluated x) →
      step c (Cluster (publish rank x (shared c)).1
                      (<[rank := AtBarrier]> (procs c)))
  | step_collect c rank :
      procs c !! rank = Some AtBarrier →
      forallb arrived (procs c) = true →
      step c (Cluster (collect (length (procs c)) (shared c)).1
                      (<[rank := Collected (collect (length (procs c)) (shared c)).2]>
                         (procs c))).

Definition start (w : world Logit Score) (shards : list partial) : cluster :=
  Cluster w (Evaluated <$> shards).

(** *** Vocabulary of the properties *)

(** Every rank of [shards] has its partial result in its slot. *)
Definition published (store : gmap string bytes) (shards : list partial) : Prop :=
  ∀ rank x, shards !! rank = Some x → store !! rank_key rank = Some (pickle_dumps x).

Definition merged (shards : list partial) : partial :=
  (concat shards.*1, concat shards.*2).

(** A process of the round has either not published yet, or its slot
    holds its partial result and, if it has collected, it has the merged
    result. *)
Definition round_inv (shards : list partial) (c : cluster) : Prop :=
  length (procs c) = length shards ∧
  ∀ rank x, shards !! rank = Some x →
    procs c !! rank = Some (Evaluated x) ∨
    (redis (shared c) !! rank_key rank = Some (pickle_dumps x) ∧
     (procs c !! rank = Some AtBarrier ∨
      procs c !! rank = Some (Collected (inr (merged shards))))).

(** Work left to a process in the round. *)
Definition pending (ph : phase) : nat :=
  match ph with
  | Evaluated _ => 2
  | AtBarrier => 1
  | Collected _ => 0
  end.

(** The scores the loop gathers, whether or not it runs to its end. *)
Definition gathered_scores (p : processor) (model : batch → generation)
    (dl : list batch) : list Score :=
  if wants_scores p then concat (sequences_scores ∘ model <$> dl) else [].

(** How reading slot [j] fails on store [store]. *)
Definition slot_fault (store : gmap string bytes) (j : nat) (e : fault) : Prop :=
  (store !! rank_key j = None ∧ e = TypeError) ∨
  (∃ b, store !! rank_key j = Some b ∧ pickle_loads_bytes b = None ∧
        e = UnpicklingError).
End Metrics.

Arguments batch : clear implicits.
Arguments generation : clear implicits.
Arguments processor : clear implicits.
Arguments phase : clear implicits.
Arguments cluster : clear implicits.

(** ** The fold controller: [train] *)

(** Line 138: [any(metric[k] >= best_metric[k] for k in best_metric.keys())].
    The generator is consumed key by key and stops at the first [True]; the
    left operand [metric[k]] is looked up first. *)
Fixpoint any_ge (metric best_metric : metric_record) (ks : list string) : result bool :=
  match ks with
  | [] => inr false
  | k :: rest =>
      match dict_get k metric with
      | None => inl KeyError
      | Some m =>
          match dict_get k best_metric with
          | None => inl KeyError
          | Some b => if Qle_bool b m then inr true else any_ge metric best_metric rest
          end
      end
  end.

(** Lines 136-139, one turn of the loop over [metrics.metrics]. *)
Definition select_step (best_metric : option metric_record) (metric : metric_record)
    : result (option metric_record) :=
  match best_metric with
  | None => inr (Some metric)
  | Some best =>
      match any_ge metric best (keys best) with
      | inl e => inl e
      | inr true => inr (Some metric)
      | inr false => inr (Some best)
      end
  end.

(** Lines 134-139: [best_metric = None] and the loop. *)
Fixpoint select_loop (best_metric : option metric_record) (metrics : list metric_record)
    : result (option metric_record) :=
  match metrics with
  | [] => inr best_metric
  | metric :: rest =>
      match select_step best_metric metric with
      | inl e => inl e
      | inr best_metric' => select_loop best_metric' rest
      end
  end.

Definition select_best (metrics : list metric_record) : result (option metric_record) :=
  select_loop None metrics.

(** What [train] leaves on the file system, in program order. *)
Inductive fs_event : Type :=
  | SaveModel (dir : string)
  | WriteText (path : string) (lines : list string).

Definition is_write (ev : fs_event) : bool :=
  match ev with WriteText _ _ => true | SaveModel _ => false end.

(** The files a log writes. *)
Definition writes (log : list fs_event) : list fs_event := List.filter is_write log.

(** Line 84: [int(os.getenv("LOCAL_RANK", "-1"))], on the parsed variable. *)
Definition local_rank_of (LOCAL_RANK : option Z) : Z := default (-1)%Z LOCAL_RANK.

(** Line 98: [KFold(n_splits=10)]. *)
Definition n_splits : nat := 10.

Definition output_dir : string := "./models/klue_t5".

Definition newline : string := String "010"%char "".

Section Train.
(** [f"{v}"] for a metric value. *)
Variable fmt : Q → string.
Variable task : string.
Variable local_rank : Z.
(** Line 131 for fold [i]: [trainer.train()] either returns, and
    [metrics.metrics] then holds the records that the evaluation callback
    appended, or lets a fault of the callback escape. *)
Variable trainer_train : nat → result (list metric_record).

(** [f'{output_dir}/{i}']. *)
Definition fold_dir (i : nat) : string := output_dir +:+ "/" +:+ pretty i.

(** [f'{output_dir}/{i}/result_{task}.txt']. *)
Definition result_path (i : nat) : string :=
  fold_dir i +:+ "/result_" +:+ task +:+ ".txt".

(** [f"{k}={v}\n"]. *)
Definition result_line (kv : string * Q) : string :=
  kv.1 +:+ "=" +:+ fmt kv.2 +:+ newline.

(** Lines 142-144.  [open(..., 'wt')] creates the file before
    [best_metric.items()] is evaluated. *)
Definition write_result (i : nat) (best_metric : option metric_record)
    (log : list fs_event) : list fs_event * result unit :=
  match best_metric with
  | Some best => (log ++ [WriteText (result_path i) (result_line <$> best)], inr tt)
  | None => (log ++ [WriteText (result_path i) []], inl AttributeError)
  end.

(** Lines 102-145, the body of the loop over the folds; the value is
    [best_metric] as the body leaves it. *)
Definition fold_body (i : nat) (log : list fs_event)
    : list fs_event * result (option metric_record) :=
  match trainer_train i with
  | inl e => (log, inl e)
  | inr metrics =>
      let log := log ++ [SaveModel (fold_dir i)] in
      match select_best metrics with
      | inl e => (log, inl e)
      | inr best_metric =>
          if decide (local_rank = 0%Z) then
            match write_result i best_metric log with
            | (log', inl e) => (log', inl e)
            | (log', inr _) => (log', inr best_metric)
            end
          else (log, inr best_metric)
      end
  end.

(** Lines 101-145 for the folds still to come. *)
Fixpoint train_folds (folds : list nat) (best_metric : option metric_record)
    (log : list fs_event) : list fs_event * result (option metric_record) :=
  match folds with
  | [] => (log, inr best_metric)
  | i :: rest =>
      match fold_body i log with
      | (log', inl e) => (log', inl e)
      | (log', inr best_metric') => train_folds rest best_metric' log'
      end
  end.

(** What a fold whose training and selection succeed adds to the log. *)
Definition fold_events (rank : Z) (best : nat → metric_record) (i : nat)
    : list fs_event :=
  SaveModel (fold_dir i) ::
  (if decide (rank = 0%Z)
   then [WriteText (result_path i) (result_line <$> best i)]
   else []).

(** [train]: the ten folds, numbered from 0. *)
Definition train : list fs_event * result (option metric_record) :=
  train_folds (seq 0 n_splits) None [].
End Train.

(** ** A byte codec for partial results

    [pickle] is a library outside this repository: the properties of the
    coordination code assume only that its [loads] inverts its [dumps].
    The codec below, length-prefixed, for predictions that are strings and
    scores that are rationals, is one serializer with that contract; the
    concrete runs use it. *)
Module RefCodec.
Import Byte.

Fixpoint enc_nat (n : nat) : bytes :=
  match n with
  | 0 => [x00]
  | S n' => x01 :: enc_nat n'
  end.

Fixpoint dec_nat (b : bytes) : option (nat * bytes) :=
  match b with
  | x00 :: rest => Some (0, rest)
  | x01 :: rest =>
      match dec_nat rest with
      | Some (n, rest') => Some (S n, rest')
      | None => None
      end
  | _ => None
  end.

Definition enc_Z (z : Z) : bytes :=
  (if (z <? 0)%Z then x01 else x00) :: enc_nat (Z.abs_nat z).

Definition dec_Z (b : bytes) : option (Z * bytes) :=
  match b with
  | x00 :: rest =>
      match dec_nat rest with
      | Some (n, rest') => Some (Z.of_nat n, rest')
      | None => None
      end
  | x01 :: rest =>
      match dec_nat rest with
      | Some (n, rest') => Some ((- Z.of_nat n)%Z, rest')
      | None => None
      end
  | _ => None
  end.

Definition enc_Q (q : Q) : bytes :=
  enc_Z (Qnum q) ++ enc_nat (Pos.to_nat (Qden q)).

Definition dec_Q (b : bytes) : option (Q * bytes) :=
  match dec_Z b with
  | Some (n, rest) =>
      match dec_nat rest with
      | Some (d, rest') => Some (Qmake n (Pos.of_nat d), rest')
      | None => None
      end
  | None => None
  end.

Definition enc_byte (x : byte) : bytes := [x].

Definition dec_byte (b : bytes) : option (byte * bytes) :=
  match b with
  | x :: rest => Some (x, rest)
  | [] => None
  end.

Section Lists.
Context {A : Type} (enc : A → bytes) (dec : bytes → option (A * bytes)).

Definition enc_list (l : list A) : bytes :=
  enc_nat (length l) ++ concat (enc <$> l).

Fixpoint dec_items (n : nat) (b : bytes) : option (list A * bytes) :=
  match n with
  | 0 => Some ([], b)
  | S n' =>
      match dec b with
      | Some (a, rest) =>
          match dec_items n' rest with
          | Some (l, rest') => Some (a :: l, rest')
          | None => None
          end
      | None => None
      end
  end.

Definition dec_list (b : bytes) : option (list A * bytes) :=
  match dec_nat b with
  | Some (n, rest) => dec_items n rest
  | None => None
  end.
End Lists.

Definition enc_string (s : string) : bytes :=
  enc_list enc_byte (String.list_byte_of_string s).

Definition dec_string (b : bytes) : option (string * bytes) :=
  match dec_list dec_byte b with
  | Some (l, rest) => Some (String.string_of_list_byte l, rest)
  | None => None
  end.

(** Modelled from the spec: the serializer of a partial result, a
    (predictions, scores) pair, to the bytes stored under a rank's key; the
    program's own serializer is [pickle.dumps], which is not in the
    sources. *)
Definition dumps (x : list string * list Q) : bytes :=
  enc_list enc_string x.1 ++ enc_list enc_Q x.2.

(** Modelled from the spec: the deserializer, for [pickle.loads]; [None] on
    bytes that are no serialized partial result. *)
Definition loads (b : bytes) : option (list string * list Q) :=
  match dec_list dec_string b with
  | Some (logits, rest) =>
      match dec_list dec_Q rest with
      | Some (scores, []) => Some (logits, scores)
      | _ => None
      end
  | None => None
  end.
End RefCodec.

(** ** Scenarios of the specification *)

(** Two workers: rank 0 holds [(["a","b"], [])], rank 1 holds [(["c"], [])]. *)
Definition two_shards {Score : Type} : list (list string * list Score) :=
[(["a"; "b"], []); (["c"], [])].

(** Ten folds with one evaluation round each: fold 3 yields [{em: 0.80}],
  fold 4 yields [{em: 0.79}], every other fold [{em: 0.5}]. *)
Definition em (v : Q) : metric_record := [("em", v)].

Definition ten_folds (i : nat) : result (list metric_record) :=
inr [em (if decide (i = 3) then (80 # 100)%Q
         else if decide (i = 4) then (79 # 100)%Q else (1 # 2)%Q)].

(** The best record of each of those folds. *)
Definition ten_bests (i : nat) : metric_record :=
em (if decide (i = 3) then (80 # 100)%Q
    else if decide (i = 4) then (79 # 100)%Q else (1 # 2)%Q).

(** A rendering of metric values, numerator over denominator. *)
Definition fmt_ratio (q : Q) : string :=
pretty (Qnum q) +:+ "/" +:+ pretty (Zpos (Qden q)).

(** [best_metric] as the fold loop leaves it after fold [k]. *)
Definition best_after (fmt : Q → string) (task : string) (local_rank : Z)
  (trainer_train : nat → result (list metric_record)) (k : nat)
  : result (option metric_record) :=
(train_folds fmt task local_rank trainer_train (seq 0 (S k)) None []).2.

(** The store after both workers have published, starting from an empty
  one, and the store after only rank 0 has. *)
Definition empty_world : world string Q := World ∅ [].

Definition rank0_published : world string Q :=
(publish RefCodec.dumps 0 (["a"; "b"], []) empty_world).1.

Definition two_published : world string Q :=
(publish RefCodec.dumps 1 (["c"], []) rank0_published).1.

(** A processor of task 'mrc' and one of task 'ynat', with a constant metric. *)
Definition mrc_processor : processor string Q unit :=
Processor "mrc" (λ _ _ _, inr (em (1 # 2)%Q)).

Definition ynat_processor : processor string Q unit :=
Processor "ynat" (λ _ _ _, inr (em (1 # 2)%Q)).

(** A model that answers every row with the sequence "a" and the score 1/2,
  and a dataloader of a batch of two rows and a batch of one. *)
Definition constant_model (data : batch (list Z)) : generation string Q :=
Generation ((λ _, "a") <$> input_ids data) ((λ _, (1 # 2)%Q) <$> input_ids data).

Definition small_dataloader : list (batch (list Z)) :=
[Batch [[1; 2]; [3]]%Z [[1; 1]; [1]]%Z; Batch [[4]]%Z [[1]]%Z].

(** Two records on two metrics: the new one is worse on 'em', equal on 'f1'. *)
Definition best_em_f1 : metric_record := [("em", (80 # 100)%Q); ("f1", (50 # 100)%Q)].
Definition new_em_f1 : metric_record := [("em", (10 # 100)%Q); ("f1", (50 # 100)%Q)].

(** ** Vocabulary of the further properties *)

(** The condition that line 61 asserts for one batch. *)
Definition rows_ok {Logit Score Row : Type}
    (model : batch Row → generation Logit Score) (data : batch Row) : Prop :=
  length (sequences (model data)) = length (input_ids data).

(** What the loop of lines 48-63 has gathered over a dataloader when no
    assertion fails: the sequences of every batch in dataloader order, and
    the scores the task asks for. *)
Definition shard_of {Logit Score Row Entries : Type}
    (p : processor Logit Score Entries) (model : batch Row → generation Logit Score)
    (dl : list (batch Row)) : list Logit * list Score :=
  (concat (sequences ∘ model <$> dl), gathered_scores p model dl).

(** A model that loses the last sequence of every batch. *)
Definition lossy_model (data : batch (list Z)) : generation string Q :=
  Generation ((λ _, "a") <$> tail (input_ids data)) ((λ _, (1 # 2)%Q) <$> tail (input_ids data)).

(** The round of the two workers at the moment rank 0 has collected. *)
Definition both_at_barrier : cluster string Q :=
  Cluster two_published [AtBarrier; AtBarrier].

Definition rank0_collected : cluster string Q :=
  Cluster (collect RefCodec.loads 2 two_published).1
          (<[0 := Collected (collect RefCodec.loads 2 two_published).2]>
             [AtBarrier; AtBarrier]).

(** A model that answers every row with the row itself and no score, and
    the dataloaders of two ranks whose shards it turns into the partial
    results of the two workers above. *)
Definition echo_model (data : batch string) : generation string Q :=
  Generation (input_ids data) [].

Definition two_dataloaders : list (list (batch string)) :=
  [[Batch ["a"; "b"] ["1"; "1"]]; [Batch ["c"] ["1"]]].

(** What the other process does to the store while rank 1 waits: rank 0
    stores its partial result. *)
Definition rank0_stores (store : gmap string bytes) : gmap string bytes :=
  <[rank_key 0 := RefCodec.dumps (["a"; "b"], [])]> store.

(** Ten folds of which fold 2 has no evaluation round. *)
Definition gap_folds (i : nat) : result (list metric_record) :=
  if decide (i = 2) then inr [] else ten_folds i.

(** * Properties *)

Lemma rank_key_inj i j : rank_key i = rank_key j → i = j.
Proof. unfold rank_key. apply (inj pretty). Qed.

(** ** The reference codec round-trips *)
Module RefCodecFacts.
Import RefCodec.

Lemma dec_enc_nat n rest : dec_nat (enc_nat n ++ rest) = Some (n, rest).
Proof. induction n as [|n IH]; simpl; [done | by rewrite IH]. Qed.

Lemma dec_enc_Z z rest : dec_Z (enc_Z z ++ rest) = Some (z, rest).
Proof.
  unfold enc_Z. destruct (Z.ltb_spec z 0); simpl; rewrite dec_enc_nat;
    do 2 f_equal; lia.
Qed.

Lemma dec_enc_Q q rest : dec_Q (enc_Q q ++ rest) = Some (q, rest).
Proof.
  unfold enc_Q, dec_Q. rewrite <- app_assoc, dec_enc_Z, dec_enc_nat.
  rewrite Pos2Nat.id. by destruct q.
Qed.

Lemma dec_enc_byte x rest : dec_byte (enc_byte x ++ rest) = Some (x, rest).
Proof. done. Qed.

Lemma dec_enc_list {A} (enc : A → bytes) dec (l : list A) rest :
  (∀ a r, dec (enc a ++ r) = Some (a, r)) →
  dec_list dec (enc_list enc l ++ rest) = Some (l, rest).
Proof.
  intros Hdec. unfold dec_list, enc_list.
  rewrite <- app_assoc, dec_enc_nat.
  induction l as [|a l IH]; csimpl; [done|].
  by rewrite <- app_assoc, Hdec, IH.
Qed.

Lemma dec_enc_string s rest : dec_string (enc_string s ++ rest) = Some (s, rest).
Proof.
  unfold dec_string, enc_string.
  rewrite (dec_enc_list enc_byte dec_byte) by apply dec_enc_byte.
  by rewrite String.string_of_list_byte_of_string.
Qed.

Lemma loads_dumps x : loads (dumps x) = Some x.
Proof.
  destruct x as [logits scores]. unfold loads, dumps; simpl.
  rewrite (dec_enc_list enc_string dec_string) by apply dec_enc_string.
  rewrite <- (app_nil_r (enc_list enc_Q scores)).
  by rewrite (dec_enc_list enc_Q dec_Q) by apply dec_enc_Q.
Qed.
End RefCodecFacts.

Ltac unfold_store :=
unfold mbind, M_bind, bind, mret, M_ret, ret, lift, raise, emit,
  redis_get, redis_set, dist_barrier in *.

Section CollectFacts.
Context {Logit Score : Type}.
Abbreviation partial := (list Logit * list Score)%type.
Variable pickle_dumps : partial → bytes.
Variable pickle_loads_bytes : bytes → option partial.

Abbreviation published := (published pickle_dumps).
Abbreviation round_inv := (round_inv pickle_dumps).

(** The contract of the codec: [pickle.loads(pickle.dumps(x)) == x]. *)
Hypothesis loads_dumps : ∀ x, pickle_loads_bytes (pickle_dumps x) = Some x.

Lemma collect_loop_spec ranks (slots : list partial) acc (w : world Logit Score) :
  Forall2 (λ i x, redis w !! rank_key i = Some (pickle_dumps x)) ranks slots →
  collect_loop pickle_loads_bytes ranks acc w =
    (World (redis w) (trace w ++ (EvGet ∘ rank_key <$> ranks)),
     inr (acc.1 ++ concat slots.*1, acc.2 ++ concat slots.*2)).
Proof.
  revert slots acc w.
  induction ranks as [|i ranks IH]; intros slots acc w H;
    inversion H as [|? x ? slots' Hi Hrest]; subst.
  - csimpl. unfold_store. destruct w, acc; simpl. by rewrite !app_nil_r.
  - csimpl. unfold read_slot, pickle_loads. unfold_store. simpl.
    rewrite Hi, loads_dumps. destruct x as [logits scores].
    rewrite (IH slots') by done. csimpl.
    by rewrite <- !app_assoc.
Qed.

Lemma collect_published shards (w : world Logit Score) :
  published (redis w) shards →
  collect pickle_loads_bytes (length shards) w =
    (World (redis w) (trace w ++ (EvGet ∘ rank_key <$> seq 0 (length shards))),
     inr (merged shards)).
Proof.
  intros Hpub. unfold collect.
  rewrite (collect_loop_spec _ shards); [done|].
  apply Forall2_same_length_lookup_2; [by rewrite length_seq|].
  intros i rank x [-> _]%lookup_seq Hx. by apply Hpub.
Qed.


Lemma publish_other rank rank' x (w : world Logit Score) :
  rank ≠ rank' →
  redis (publish pickle_dumps rank x w).1 !! rank_key rank' = redis w !! rank_key rank'.
Proof.
  intros Hne. unfold publish. unfold_store. simpl.
  apply lookup_insert_ne. intros Heq. by apply Hne, rank_key_inj.
Qed.

Lemma publish_own rank x (w : world Logit Score) :
  redis (publish pickle_dumps rank x w).1 !! rank_key rank = Some (pickle_dumps x).
Proof. unfold publish. unfold_store. simpl. apply lookup_insert_eq. Qed.

(** *** The round of the whole group *)

Abbreviation step := (step pickle_dumps pickle_loads_bytes).

Lemma round_inv_start w shards : round_inv shards (start w shards).
Proof.
  split; simpl; [by rewrite length_fmap|].
  intros rank x Hx. left. by rewrite list_lookup_fmap, Hx.
Qed.

Lemma arrived_published shards c :
  round_inv shards c → forallb arrived (procs c) = true →
  published (redis (shared c)) shards.
Proof.
  intros [_ Hinv] Hall rank x Hx.
  destruct (Hinv rank x Hx) as [Hev|[Hpub _]]; [|done].
  rewrite forallb_forall in Hall.
  apply list_elem_of_lookup_2, list_elem_of_In, Hall in Hev. done.
Qed.

Lemma round_inv_step shards c c' :
  round_inv shards c → step c c' → round_inv shards c'.
Proof.
  intros Hinv Hstep. destruct Hstep as [c r0 x0 Hr0|c r0 Hr0 Hall].
  - destruct Hinv as [Hlen Hinv]. split; [simpl; by rewrite length_insert|].
    cbn [shared procs].
    intros rank x Hx. destruct (decide (rank = r0)) as [->|Hne].
    + right. destruct (Hinv r0 x Hx) as [Hev|[_ [?|?]]]; [|congruence..].
      assert (x0 = x) as -> by congruence.
      split; [apply publish_own|]. left.
      apply list_lookup_insert_eq. by eapply lookup_lt_Some.
    + rewrite publish_other by done.
      rewrite list_lookup_insert_ne by done. by apply Hinv.
  - pose proof (arrived_published _ _ Hinv Hall) as Hpub.
    destruct Hinv as [Hlen Hinv]. split; [simpl; by rewrite length_insert|].
    cbn [shared procs].
    rewrite Hlen, (collect_published shards) by done. cbn [fst snd redis].
    intros rank x Hx. right. split; [by apply Hpub|].
    destruct (decide (rank = r0)) as [->|Hne].
    + right. apply list_lookup_insert_eq. by eapply lookup_lt_Some.
    + rewrite list_lookup_insert_ne by done.
      destruct (Hinv rank x Hx) as [Hev|[_ ?]]; [|done].
      rewrite forallb_forall in Hall.
      apply list_elem_of_lookup_2, list_elem_of_In, Hall in Hev. done.
Qed.

Lemma round_inv_reachable shards w c :
  rtc step (start w shards) c → round_inv shards c.
Proof.
  revert c. apply rtc_ind_r; [apply round_inv_start|].
  intros c1 c2 _ Hstep IH. by eapply round_inv_step.
Qed.

(** A process that has collected holds the merged result. *)
Lemma round_collected shards w c rank r :
  rtc step (start w shards) c →
  procs c !! rank = Some (Collected r) →
  r = inr (merged shards).
Proof.
  intros [Hlen Hinv]%round_inv_reachable Hr.
  destruct (lookup_lt_is_Some_2 shards rank) as [x Hx].
  { rewrite <- Hlen. by eapply lookup_lt_Some. }
  destruct (Hinv rank x Hx) as [?|[_ [?|?]]]; congruence.
Qed.

Lemma pending_insert (l : list (phase Logit Score)) i ph ph' :
  l !! i = Some ph → pending ph' < pending ph →
  sum_list (pending <$> <[i := ph']> l) < sum_list (pending <$> l).
Proof.
  revert i. induction l as [|a l IH]; intros [|i] Hi Hlt; simplify_eq/=.
  - lia.
  - specialize (IH i Hi Hlt). lia.
Qed.

(** The round never blocks before every process has collected. *)
Lemma round_progress c :
  (∃ c', step c c') ∨ Forall (λ ph, pending ph = 0) (procs c).
Proof.
  destruct (decide (Exists (λ ph, arrived ph = false) (procs c))) as [Hex|Hall].
  - left. apply Exists_exists in Hex as (ph & [rank Hr]%list_elem_of_lookup_1 & Hph).
    destruct ph as [x| |r]; try done.
    eexists. by eapply step_publish.
  - apply not_Exists_Forall in Hall; [|intros ?; apply _].
    assert (forallb arrived (procs c) = true) as Hb.
    { apply forallb_forall. intros ph Hin%list_elem_of_In.
      rewrite Forall_forall in Hall. specialize (Hall ph Hin). simpl in Hall.
      by destruct (arrived ph). }
    destruct (decide (Exists (λ ph, pending ph = 1) (procs c))) as [Hex|Hno].
    + left. apply Exists_exists in Hex as (ph & [rank Hr]%list_elem_of_lookup_1 & Hph).
      destruct ph as [x| |r]; try done.
      eexists. by eapply step_collect.
    + right. apply not_Exists_Forall in Hno; [|intros ?; apply _].
      rewrite Forall_forall in Hall, Hno |- *. intros ph Hin.
      specialize (Hall ph Hin). specialize (Hno ph Hin). simpl in *.
      destruct ph; done.
Qed.

Lemma step_pending c c' :
  step c c' → sum_list (pending <$> procs c') < sum_list (pending <$> procs c).
Proof.
  intros [? rank x Hr|? rank Hr _]; simpl; eapply pending_insert; eauto.
Qed.

(** Every run of the round extends to one in which all have collected. *)
Lemma round_terminates c :
  ∃ c', rtc step c c' ∧ Forall (λ ph, pending ph = 0) (procs c').
Proof.
  remember (sum_list (pending <$> procs c)) as n eqn:Hn.
  revert c Hn. induction n as [n IH] using lt_wf_ind. intros c ->.
  destruct (round_progress c) as [[c1 Hstep]|Hdone].
  - destruct (IH _ (step_pending _ _ Hstep) c1 eq_refl) as (c' & Hrtc & Hall).
    exists c'. split; [by eapply rtc_l|done].
  - by exists c.
Qed.

Lemma round_completes shards w c :
  rtc step (start w shards) c →
  ∃ c', rtc step c c' ∧
        procs c' = replicate (length shards) (Collected (inr (merged shards))).
Proof.
  intros Hc. destruct (round_terminates c) as (c' & Hrtc & Hall).
  exists c'. split; [done|].
  assert (rtc step (start w shards) c') as Hc' by by etrans.
  pose proof (round_inv_reachable _ _ _ Hc') as [Hlen _].
  apply list_eq_same_length with (length shards); [by rewrite length_replicate|done|].
  intros i ph ph' Hi Hph [-> _]%lookup_replicate.
  rewrite Forall_forall in Hall.
  pose proof (Hall ph (list_elem_of_lookup_2 _ _ _ Hph)) as H0.
  destruct ph as [| |r]; try done.
  by rewrite (round_collected _ _ _ _ _ Hc' Hph).
Qed.

Lemma read_slot_published rank x (w : world Logit Score) :
  redis w !! rank_key rank = Some (pickle_dumps x) →
  read_slot pickle_loads_bytes rank w =
    (World (redis w) (trace w ++ [EvGet (rank_key rank)]), inr x).
Proof.
  intros Hslot. unfold read_slot, pickle_loads. unfold_store. simpl.
  by rewrite Hslot, loads_dumps.
Qed.

(** C1. For every world size N (the number of shards) and every
    assignment of partial results to the ranks 0..N-1: if the slot of
    every rank holds that rank's published partial result, [collect]
    returns the concatenation of all ranks' prediction lists (and score
    lists) in ascending rank order, reads each slot once in that order,
    leaves the store as it is, and the merged prediction list has the sum
    of the shard sizes as its length.  In a round of N workers started on
    any store, in whatever order they publish, every worker that has
    collected after the barrier holds that merged result, and every run
    of the round extends to one where all N workers hold it. *)
Theorem collect_after_publish (shards : list partial) (w : world Logit Score) :
  published (redis w) shards →
  collect pickle_loads_bytes (length shards) w =
    (World (redis w) (trace w ++ (EvGet ∘ rank_key <$> seq 0 (length shards))),
     inr (concat shards.*1, concat shards.*2)) ∧
  length (concat shards.*1) = sum_list (length ∘ fst <$> shards) ∧
  ∀ w0 c,
    rtc step (start w0 shards) c →
    (∀ rank r, procs c !! rank = Some (Collected r) →
               r = inr (concat shards.*1, concat shards.*2)) ∧
    (∃ c', rtc step c c' ∧
           procs c' = replicate (length shards)
                        (Collected (inr (concat shards.*1, concat shards.*2)))).
Proof.
  intros Hpub. split; [by apply collect_published|]. split.
  - rewrite length_concat. f_equal. by rewrite <- list_fmap_compose.
  - intros w0 c Hc. split.
    + intros rank r Hr. by rewrite (round_collected _ _ _ _ _ Hc Hr).
    + by apply (round_completes shards w0).
Qed.

(** A rank that reads its own slot right after publishing gets back the
    partial result it published; and in every state of an evaluation round,
    whatever the other ranks have published meanwhile, a rank that has
    published reads back from its own slot exactly what it published. *)
Lemma own_slot_read_back :
  (∀ rank x (w : world Logit Score),
     (read_slot pickle_loads_bytes rank (publish pickle_dumps rank x w).1).2 = inr x) ∧
  (∀ shards w c rank x ph,
     rtc step (start w shards) c →
     shards !! rank = Some x →
     procs c !! rank = Some ph → arrived ph = true →
     (read_slot pickle_loads_bytes rank (shared c)).2 = inr x).
Proof.
  split.
  - intros rank x w. by rewrite (read_slot_published rank x) by apply publish_own.
  - intros shards w c rank x ph [_ Hinv]%round_inv_reachable Hx Hph Harr.
    destruct (Hinv rank x Hx) as [Hev|[Hslot _]].
    + rewrite Hev in Hph. by simplify_eq.
    + by rewrite (read_slot_published rank x).
Qed.
End CollectFacts.

Section TwoWorkers.
Context {Score : Type}.
Variable pickle_dumps : list string * list Score → bytes.
Variable pickle_loads_bytes : bytes → option (list string * list Score).
Hypothesis loads_dumps : ∀ x, pickle_loads_bytes (pickle_dumps x) = Some x.

(** C4. With N=2 workers, rank 0 publishing [(["a","b"], [])] and rank 1
    publishing [(["c"], [])], whatever the store held before and in
    whatever order the two publish: [collect] on a store holding both
    slots yields [(["a","b","c"], [])]; every worker that has passed the
    barrier and collected holds exactly that value; and every run of the
    round extends to one where both workers hold it. *)
Theorem two_workers_collect (w : world string Score) :
  (published pickle_dumps (redis w) two_shards →
   (collect pickle_loads_bytes 2 w).2 = inr (["a"; "b"; "c"], [])) ∧
  (∀ c, rtc (step pickle_dumps pickle_loads_bytes) (start w two_shards) c →
     (∀ rank r, procs c !! rank = Some (Collected r) →
                r = inr (["a"; "b"; "c"], [])) ∧
     (∃ c', rtc (step pickle_dumps pickle_loads_bytes) c c' ∧
            procs c' = [Collected (inr (["a"; "b"; "c"], []));
                        Collected (inr (["a"; "b"; "c"], []))])).
Proof.
  split.
  - intros Hpub.
    by rewrite (collect_published pickle_dumps pickle_loads_bytes loads_dumps two_shards).
  - intros c Hc. split.
    + intros rank r Hr.
      by rewrite (round_collected pickle_dumps pickle_loads_bytes loads_dumps _ _ _ _ _ Hc Hr).
    + by apply (round_completes pickle_dumps pickle_loads_bytes loads_dumps two_shards w).
Qed.
End TwoWorkers.

(** C9. Serialization round-trip: for every partial result [x],
    deserializing the serialized form yields [x]; so a rank that reads its
    own slot gets back the value it published, right after publishing and
    in every state of an evaluation round in which it has published,
    whatever the other ranks have stored meanwhile. *)
Theorem serialization_round_trip :
  (∀ x, RefCodec.loads (RefCodec.dumps x) = Some x) ∧
  (∀ rank x (w : world string Q),
     (read_slot RefCodec.loads rank (publish RefCodec.dumps rank x w).1).2 = inr x) ∧
  (∀ shards w c rank x ph,
     rtc (step RefCodec.dumps RefCodec.loads) (start w shards) c →
     shards !! rank = Some x →
     procs c !! rank = Some ph → arrived ph = true →
     (read_slot RefCodec.loads rank (shared c)).2 = inr x).
Proof.
  split; [exact RefCodecFacts.loads_dumps|].
  exact (own_slot_read_back RefCodec.dumps RefCodec.loads RefCodecFacts.loads_dumps).
Qed.

Section MetricsFacts.
Context {Logit Score Row Entries : Type}.
Abbreviation partial := (list Logit * list Score)%type.
Abbreviation processor := (processor Logit Score Entries).
Abbreviation batch := (batch Row).
Abbreviation generation := (generation Logit Score).
Variable pickle_dumps : partial → bytes.
Variable pickle_loads_bytes : bytes → option partial.

Abbreviation slot_fault := (slot_fault pickle_loads_bytes).

Implicit Types (p : processor) (model : batch → generation) (dl : list batch).

Lemma wants_scores_task p :
  wants_scores p = true ↔ task p = "mrc" ∨ task p = "vinca".
Proof.
  unfold wants_scores. rewrite orb_true_iff, !bool_decide_eq_true. done.
Qed.

Lemma eval_loop_inv p model dl acc logits scores :
  eval_loop p model dl acc = inr (logits, scores) →
  logits = acc.1 ++ concat (sequences ∘ model <$> dl) ∧
  scores = acc.2 ++ gathered_scores p model dl.
Proof.
  unfold gathered_scores.
  revert acc. induction dl as [|data dl IH]; intros [l s] H; simplify_eq/=.
  - by destruct (wants_scores p); rewrite !app_nil_r.
  - unfold eval_batch in H. case_decide; [|done]. simpl in H.
    apply IH in H as [-> ->]. simpl.
    destruct (wants_scores p); by rewrite <- ?app_assoc, ?app_nil_r.
Qed.

Lemma eval_loop_total p model dl acc :
  Forall (λ data, length (sequences (model data)) = length (input_ids data)) dl →
  ∃ logits scores,
    eval_loop p model dl acc = inr (logits, scores) ∧
    length logits = length acc.1 + shard_size dl.
Proof.
  unfold shard_size.
  intros Hall. revert acc. induction Hall as [|data dl Hrow _ IH]; intros [l s].
  - exists l, s. split; [done|]. csimpl. lia.
  - simpl. unfold eval_batch. rewrite decide_True by done. simpl.
    destruct (IH (l ++ sequences (model data),
                  if wants_scores p then s ++ sequences_scores (model data) else s))
      as (logits & scores & -> & Hlen).
    exists logits, scores. split; [done|].
    rewrite Hlen. csimpl. rewrite length_app, Hrow. unfold compose. lia.
Qed.

(** C6. If generation returns exactly one output sequence per input
    sequence for every batch of the dataloader, the assertion of line 61
    holds in every turn of the loop: each turn succeeds and makes the
    prediction list longer by exactly the batch's number of rows, the loop
    runs to its end without an [AssertionError], the prediction list has
    the size of the shard, and that partial result is what the worker
    publishes under its rank. *)
Theorem assertion_holds p model dl :
  (∀ data, data ∈ dl → length (sequences (model data)) = length (input_ids data)) →
  (∀ acc data, data ∈ dl →
     ∃ acc', eval_batch p model acc data = inr acc' ∧
             length acc'.1 = length acc.1 + length (input_ids data)) ∧
  ∃ logits scores,
    eval_loop p model dl ([], []) = inr (logits, scores) ∧
    length logits = shard_size dl ∧
    ∀ rank (w : world Logit Score),
      on_evaluate_shard pickle_dumps p model dl rank w =
        (World (<[rank_key rank := pickle_dumps (logits, scores)]> (redis w))
               (trace w ++ [EvSet (rank_key rank) (pickle_dumps (logits, scores))]),
         inr tt).
Proof.
  intros Hrows. split.
  - intros acc data Hin. unfold eval_batch.
    rewrite decide_True by by apply Hrows.
    eexists. split; [done|]. simpl. by rewrite length_app, Hrows.
  - destruct (eval_loop_total p model dl ([], [])) as (logits & scores & Hrun & Hlen).
    { by apply Forall_forall. }
    exists logits, scores. split; [done|]. split; [done|].
    intros rank w. unfold on_evaluate_shard, publish. unfold_store.
    by rewrite Hrun.
Qed.

(** C7, as the code has it: when the loop runs to its end, the score list
    it publishes is the concatenation, in batch order, of the batches'
    sequence scores if the task is 'mrc' or 'vinca', and the empty list for
    every other task; so it is non-empty exactly when the task is 'mrc' or
    'vinca' and some batch of the shard came with a score. *)
Theorem scores_by_task p model dl logits scores :
  eval_loop p model dl ([], []) = inr (logits, scores) →
  scores = (if bool_decide (task p = "mrc" ∨ task p = "vinca")
            then concat (sequences_scores ∘ model <$> dl) else []) ∧
  (scores ≠ [] ↔
     (task p = "mrc" ∨ task p = "vinca") ∧
     ∃ data, data ∈ dl ∧ sequences_scores (model data) ≠ []).
Proof.
  intros [_ ->]%eval_loop_inv. simpl. unfold gathered_scores.
  pose proof (wants_scores_task p) as Hw.
  destruct (wants_scores p); case_bool_decide as Ht;
    try (exfalso; by (apply Ht, Hw) || (by apply Hw in Ht)).
  - split; [done|]. split.
    + intros Hne. split; [done|].
      induction dl as [|data dl' IH]; [done|]. csimpl in Hne.
      destruct (sequences_scores (model data)) as [|s ss] eqn:Hs.
      * destruct (IH Hne) as (d & Hd & Hds). exists d. split; [by right|done].
      * exists data. split; [by left|]. simpl. by rewrite Hs.
    + intros [_ (data & Hin & Hs)] Hnil. apply Hs.
      induction dl as [|d dl' IH]; [by apply not_elem_of_nil in Hin|].
      csimpl in Hnil. apply app_eq_nil in Hnil as [Hd Hrest].
      apply elem_of_cons in Hin as [->|Hin]; [done|by apply IH].
  - split; [done|]. split; [done|]. by intros [? _].
Qed.

(** C10. When [collect] has merged the slots into [all_logits] and
    [all_scores], the metric formula is called exactly once, with
    [output_scores=None] if the merged score list is empty and with the
    merged (non-empty) score list otherwise; its record is appended to
    [self.metrics]. *)
Theorem empty_scores_become_none p entries self_metrics world_size
    (w w' : world Logit Score) all_logits all_scores :
  collect pickle_loads_bytes world_size w = (w', inr (all_logits, all_scores)) →
  ∃ arg,
    (all_scores = [] → arg = None) ∧
    (all_scores ≠ [] → arg = Some all_scores) ∧
    on_evaluate_merge pickle_loads_bytes p entries self_metrics world_size w =
      (World (redis w') (trace w' ++ [EvComputeMetrics all_logits arg]),
       match compute_metrics p all_logits entries arg with
       | inl e => inl e
       | inr m => inr (self_metrics ++ [m])
       end).
Proof.
  intros Hcollect. exists (output_scores_arg all_scores).
  split; [by intros ->|]. split.
  - intros Hne. unfold output_scores_arg. rewrite decide_False; [done|].
    by destruct all_scores.
  - unfold on_evaluate_merge. unfold_store. rewrite Hcollect. simpl.
    by destruct (compute_metrics p all_logits entries (output_scores_arg all_scores)).
Qed.

Lemma collect_loop_fails ranks acc (w : world Logit Score) rank :
  rank ∈ ranks → redis w !! rank_key rank = None →
  ∃ n j e,
    ranks !! n = Some j ∧ rank ∈ drop n ranks ∧ slot_fault (redis w) j e ∧
    collect_loop pickle_loads_bytes ranks acc w =
      (World (redis w) (trace w ++ (EvGet ∘ rank_key <$> take (S n) ranks)), inl e).
Proof.
  revert acc w. induction ranks as [|i ranks IH]; intros acc w Hin Hmiss.
  { by apply not_elem_of_nil in Hin. }
  csimpl. unfold read_slot, pickle_loads. unfold_store. simpl.
  destruct (redis w !! rank_key i) as [b|] eqn:Hi.
  - destruct (pickle_loads_bytes b) as [[logits scores]|] eqn:Hb.
    + apply elem_of_cons in Hin as [->|Hin]; [congruence|].
      destruct (IH (acc.1 ++ logits, acc.2 ++ scores)
                   (World (redis w) (trace w ++ [EvGet (rank_key i)])) Hin Hmiss)
        as (n & j & e & Hn & Hdrop & Hfault & Hrun).
      exists (S n), j, e. split; [done|]. split; [done|]. split; [done|].
      rewrite Hrun. simpl. by rewrite <- app_assoc.
    + exists 0, i, UnpicklingError. split; [done|]. split; [done|].
      split; [right; eauto|]. by rewrite take_0.
  - exists 0, i, TypeError. split; [done|]. split; [done|].
    split; [by left|]. by rewrite take_0.
Qed.

(** A missing slot makes [collect] raise at the first slot that cannot be
    loaded; every slot up to that one has been read once, none after it. *)
Lemma collect_fails world_size rank (w : world Logit Score) :
  rank < world_size → redis w !! rank_key rank = None →
  ∃ (j : nat) e,
    (j ≤ rank)%nat ∧ slot_fault (redis w) j e ∧
    collect pickle_loads_bytes world_size w =
      (World (redis w) (trace w ++ (EvGet ∘ rank_key <$> seq 0 (S j))), inl e).
Proof.
  intros Hlt Hmiss. unfold collect.
  destruct (collect_loop_fails (seq 0 world_size) ([], []) w rank)
    as (n & j & e & Hn & Hdrop & Hfault & Hrun); [|done|].
  { apply elem_of_seq. lia. }
  apply lookup_seq in Hn as [-> Hn]. rewrite Nat.add_0_l in *.
  rewrite drop_seq in Hdrop. apply elem_of_seq in Hdrop.
  exists n, e. split; [lia|]. split; [done|].
  rewrite Hrun, take_seq. by replace (S n `min` world_size) with (S n) by lia.
Qed.
End MetricsFacts.

(** ** The fold controller *)

Lemma dict_get_keys k (d : metric_record) : k ∈ keys d → is_Some (dict_get k d).
Proof.
unfold keys. induction d as [|[k' v] d IH]; csimpl; intros Hin.
- by apply not_elem_of_nil in Hin.
- case_decide; [by eexists|].
  apply elem_of_cons in Hin as [->|Hin]; [done|by apply IH].
Qed.

Lemma any_ge_spec (metric best : metric_record) ks :
(∀ k, k ∈ ks → is_Some (dict_get k metric) ∧ is_Some (dict_get k best)) →
∃ b, any_ge metric best ks = inr b ∧
     (b = true ↔ ∃ k old new, k ∈ ks ∧ dict_get k best = Some old ∧
                              dict_get k metric = Some new ∧ (old <= new)%Q).
Proof.
induction ks as [|k ks IH]; intros Hks; simpl.
- exists false. split; [done|]. split; [done|].
  intros (k & ? & ? & Hin & _). by apply not_elem_of_nil in Hin.
- destruct (Hks k) as [[new Hnew] [old Hold]]; [by left|].
  rewrite Hnew, Hold.
  destruct (Qle_bool old new) eqn:Hle.
  + exists true. split; [done|]. split; [|done]. intros _.
    exists k, old, new. split; [by left|]. by rewrite <- Qle_bool_iff.
  + destruct IH as (b & -> & Hb); [intros k' Hk'; apply Hks; by right|].
    exists b. split; [done|]. rewrite Hb. split.
    * intros (k' & o & n & Hin & ?). exists k', o, n. split; [by right|done].
    * intros (k' & o & n & [->|Hin]%elem_of_cons & Ho & Hn & Hge).
      -- simplify_eq. apply Qle_bool_iff in Hge. congruence.
      -- by exists k', o, n.
Qed.

(** C2. For a current best record A and a new record B that has a value for
  every key of A: the comparison of line 138 is defined, it is true if and
  only if some key k of A has B[k] >= A[k], and the controller's best
  record afterwards is B when it is true and A when it is false.  One such
  key is enough, whatever the other keys say. *)
Theorem best_replaced_iff_any_ge (A B : metric_record) :
(∀ k, k ∈ keys A → is_Some (dict_get k B)) →
∃ replaced : bool,
  any_ge B A (keys A) = inr replaced ∧
  select_step (Some A) B = inr (Some (if replaced then B else A)) ∧
  (replaced = true ↔
     ∃ k a b, k ∈ keys A ∧ dict_get k A = Some a ∧ dict_get k B = Some b ∧
              (a <= b)%Q).
Proof.
intros HB. destruct (any_ge_spec B A (keys A)) as (b & Hany & Hb).
{ intros k Hk. split; [by apply HB|by apply dict_get_keys]. }
exists b. split; [done|]. split; [|done].
unfold select_step. rewrite Hany. by destruct b.
Qed.

Section TrainFacts.
Variable fmt : Q → string.
Variable task : string.

Lemma fold_body_ok local_rank trainer_train best i log ms :
  trainer_train i = inr ms → select_best ms = inr (Some (best i)) →
  fold_body fmt task local_rank trainer_train i log =
    (log ++ fold_events fmt task local_rank best i, inr (Some (best i))).
Proof.
  intros Hms Hbest. unfold fold_body, fold_events. rewrite Hms, Hbest.
  case_decide; simpl; by rewrite <- ?app_assoc.
Qed.

Lemma train_folds_ok local_rank trainer_train best folds b log :
  Forall (λ i, ∃ ms, trainer_train i = inr ms ∧
                    select_best ms = inr (Some (best i))) folds →
  train_folds fmt task local_rank trainer_train folds b log =
    (log ++ (folds ≫= fold_events fmt task local_rank best),
     inr (from_option (Some ∘ best) b (last folds))).
Proof.
  intros Hall. revert b log.
  induction Hall as [|i folds (ms & Hms & Hbest) _ IH]; intros b log.
  - by rewrite app_nil_r.
  - simpl.
    rewrite (fold_body_ok _ _ best _ _ ms) by done.
    rewrite IH. csimpl. rewrite <- app_assoc. do 2 f_equal.
    rewrite last_cons. by destruct (last folds).
Qed.

(** A process whose local rank is not 0 writes no file, however the run
    goes. *)
Lemma fold_body_silent local_rank trainer_train i log :
  local_rank ≠ 0%Z →
  writes (fold_body fmt task local_rank trainer_train i log).1 = writes log.
Proof.
  intros Hrank. unfold fold_body, writes.
  destruct (trainer_train i) as [e|ms]; [done|].
  destruct (select_best ms) as [e|b]; simpl;
    rewrite ?decide_False by done; simpl;
    by rewrite List.filter_app, app_nil_r.
Qed.

Lemma train_folds_silent local_rank trainer_train folds b log :
  local_rank ≠ 0%Z →
  writes (train_folds fmt task local_rank trainer_train folds b log).1 = writes log.
Proof.
  intros Hrank. revert b log. induction folds as [|i folds IH]; intros b log; [done|].
  simpl.
  pose proof (fold_body_silent local_rank trainer_train i log Hrank) as Hi.
  destruct (fold_body fmt task local_rank trainer_train i log) as [log' [e|b']]; [done|].
  by rewrite IH.
Qed.

(** A fault of [trainer.train()] ends the run: the fold loop stops there. *)
Lemma train_folds_fault local_rank trainer_train folds b log i e :
  i ∈ folds → trainer_train i = inl e →
  ∃ e', (train_folds fmt task local_rank trainer_train folds b log).2 = inl e'.
Proof.
  revert b log. induction folds as [|j folds IH]; intros b log Hin He.
  { by apply not_elem_of_nil in Hin. }
  simpl.
  destruct (fold_body fmt task local_rank trainer_train j log) as [log' [e'|b']] eqn:Hj;
    [by exists e'|].
  apply elem_of_cons in Hin as [->|Hin]; [|by apply IH].
  unfold fold_body in Hj. rewrite He in Hj. done.
Qed.

Lemma train_folds_first_fault local_rank trainer_train best pre i post e b log :
  Forall (λ j, ∃ ms, trainer_train j = inr ms ∧
                    select_best ms = inr (Some (best j))) pre →
  trainer_train i = inl e →
  train_folds fmt task local_rank trainer_train (pre ++ i :: post) b log =
    (log ++ (pre ≫= fold_events fmt task local_rank best), inl e).
Proof.
  intros Hall He. revert b log.
  induction Hall as [|j pre (ms & Hms & Hbest) _ IH]; intros b log.
  - simpl. unfold fold_body. by rewrite He, app_nil_r.
  - simpl. rewrite (fold_body_ok _ _ best _ _ ms) by done.
    rewrite IH. csimpl. by rewrite <- app_assoc.
Qed.

Lemma writes_fold_events local_rank best folds :
  writes (folds ≫= fold_events fmt task local_rank best) =
    if decide (local_rank = 0%Z)
    then (λ i, WriteText (result_path task i) (result_line fmt <$> best i)) <$> folds
    else [].
Proof.
  unfold writes, fold_events.
  induction folds as [|i folds IH]; csimpl; [by case_decide|].
  rewrite List.filter_app, IH. by case_decide.
Qed.

(** A process started without [LOCAL_RANK] has local rank -1 and writes no
    file. *)
Lemma no_local_rank_no_file trainer_train :
  writes (train fmt task (local_rank_of None) trainer_train).1 = [].
Proof. unfold train. by rewrite train_folds_silent. Qed.

(** C8. In a run whose ten folds each train and select a best record:
    the files the process writes are, if its local rank is 0, exactly one
    file per fold, [result_<task>.txt] in the fold's output directory,
    holding one [key=value] line per metric of that fold's best record,
    and none at all if its local rank is not 0.  A process whose local rank
    is not 0 writes no file in any run, failing or not. *)
Theorem result_file_only_on_rank0 local_rank trainer_train best :
  (∀ i, i < n_splits → ∃ ms, trainer_train i = inr ms ∧
                             select_best ms = inr (Some (best i))) →
  writes (train fmt task local_rank trainer_train).1 =
    (if decide (local_rank = 0%Z)
     then (λ i, WriteText (output_dir +:+ "/" +:+ pretty i +:+ "/result_" +:+ task +:+ ".txt")
                          ((λ kv, kv.1 +:+ "=" +:+ fmt kv.2 +:+ newline) <$> best i))
            <$> seq 0 n_splits
     else []) ∧
  ∀ any_trainer,
    local_rank ≠ 0%Z → writes (train fmt task local_rank any_trainer).1 = [].
Proof.
  intros Hok. split.
  - unfold train. rewrite (train_folds_ok _ _ best).
    + cbn [fst]. rewrite app_nil_l. apply writes_fold_events.
    + apply Forall_forall. intros i Hi%elem_of_seq. apply Hok. lia.
  - intros any_trainer Hrank. unfold train. by rewrite train_folds_silent.
Qed.

(** C3, as the code has it: every fold selects its best record among its
    own evaluation rounds only.  In a run of ten folds that all train and
    select, where fold 3 yields [{em: 0.80}] and fold 4 yields
    [{em: 0.79}], the rank-0 result file of fold 3 holds em=0.80, that of
    fold 4 holds em=0.79, and [best_metric] after fold 4 is [{em: 0.79}].
    Within one fold, a round yielding [{em: 0.80}] followed by a round
    yielding [{em: 0.79}] leaves [{em: 0.80}] as the fold's best. *)
Theorem best_is_per_fold trainer_train best :
  (∀ i, i < n_splits → ∃ ms, trainer_train i = inr ms ∧
                             select_best ms = inr (Some (best i))) →
  trainer_train 3 = inr [em (80 # 100)%Q] →
  trainer_train 4 = inr [em (79 # 100)%Q] →
  WriteText (result_path task 3) [result_line fmt ("em", (80 # 100)%Q)]
    ∈ (train fmt task 0 trainer_train).1 ∧
  WriteText (result_path task 4) [result_line fmt ("em", (79 # 100)%Q)]
    ∈ (train fmt task 0 trainer_train).1 ∧
  best_after fmt task 0 trainer_train 4 = inr (Some (em (79 # 100)%Q)) ∧
  select_best [em (80 # 100)%Q; em (79 # 100)%Q] = inr (Some (em (80 # 100)%Q)).
Proof.
  intros Hok H3 H4.
  assert (best 3 = em (80 # 100)%Q) as Hb3.
  { assert (3 < n_splits) as Hlt by (unfold n_splits; lia).
    destruct (Hok 3 Hlt) as (ms & Hms & Hbest).
    rewrite H3 in Hms. simplify_eq. unfold select_best in Hbest. by simplify_eq/=. }
  assert (best 4 = em (79 # 100)%Q) as Hb4.
  { assert (4 < n_splits) as Hlt by (unfold n_splits; lia).
    destruct (Hok 4 Hlt) as (ms & Hms & Hbest).
    rewrite H4 in Hms. simplify_eq. unfold select_best in Hbest. by simplify_eq/=. }
  assert (∀ n, (n ≤ n_splits)%nat →
            Forall (λ i, ∃ ms, trainer_train i = inr ms ∧
                              select_best ms = inr (Some (best i))) (seq 0 n)) as Hall.
  { intros n Hn. apply Forall_forall. intros i Hi%elem_of_seq. apply Hok. lia. }
  unfold best_after, train.
  rewrite !(train_folds_ok _ _ best) by (apply Hall; unfold n_splits; lia).
  cbn [fst snd]. rewrite app_nil_l.
  split; [|split; [|split]].
  - apply list_elem_of_bind. exists 3. split; [|apply elem_of_seq; unfold n_splits; lia].
    unfold fold_events. rewrite decide_True by done. rewrite Hb3.
    right. by left.
  - apply list_elem_of_bind. exists 4. split; [|apply elem_of_seq; unfold n_splits; lia].
    unfold fold_events. rewrite decide_True by done. rewrite Hb4.
    right. by left.
  - simpl. by rewrite Hb4.
  - done.
Qed.
End TrainFacts.

Section Faults.
Context {Logit Score Row Entries : Type}.
Variable pickle_dumps : list Logit * list Score → bytes.
Variable pickle_loads_bytes : bytes → option (list Logit * list Score).

Lemma train_first_fault fmt task local_rank trainer_train best i e :
  i < n_splits →
  (∀ k, k < i → ∃ ms, trainer_train k = inr ms ∧
                      select_best ms = inr (Some (best k))) →
  trainer_train i = inl e →
  train fmt task local_rank trainer_train =
    (seq 0 i ≫= fold_events fmt task local_rank best, inl e).
Proof.
  intros Hi Hok He. unfold train.
  replace n_splits with (i + S (n_splits - S i)) by lia.
  rewrite seq_app. cbn [seq].
  rewrite (train_folds_first_fault _ _ _ _ best) with (e := e); [done| |done].
  apply Forall_forall. intros k Hk%elem_of_seq. apply Hok. lia.
Qed.

(** C5. If the slot of some rank below [world_size] is missing when a
    process merges, the merge raises: it reads the slots in rank order,
    once each, up to the first one that cannot be loaded, raises there
    (with the [TypeError] of [pickle.loads(None)] when that is the missing
    slot), reads nothing again, calls no metric and appends no record.
    Nothing in [train] handles a fault that escapes [trainer.train()]: the
    run ends with that fault at the first fold that raises, having saved
    and written only the folds before it. *)
Theorem missing_slot_ends_run (p : processor Logit Score Entries) entries
    self_metrics world_size rank (w : world Logit Score) :
  rank < world_size →
  redis w !! rank_key rank = None →
  (∃ (j : nat) e,
     (j ≤ rank)%nat ∧ slot_fault pickle_loads_bytes (redis w) j e ∧
     ((∀ i, i < rank → ∃ b x, redis w !! rank_key i = Some b ∧
                              pickle_loads_bytes b = Some x) →
      j = rank ∧ e = TypeError) ∧
     on_evaluate_merge pickle_loads_bytes p entries self_metrics world_size w =
       (World (redis w) (trace w ++ (EvGet ∘ rank_key <$> seq 0 (S j))), inl e)) ∧
  (∀ fmt task local_rank trainer_train best i e,
     i < n_splits →
     (∀ k, k < i → ∃ ms, trainer_train k = inr ms ∧
                         select_best ms = inr (Some (best k))) →
     trainer_train i = inl e →
     train fmt task local_rank trainer_train =
       (seq 0 i ≫= fold_events fmt task local_rank best, inl e)).
Proof.
  intros Hlt Hmiss. split; [|intros; by apply train_first_fault].
  destruct (collect_fails pickle_loads_bytes world_size rank w Hlt Hmiss)
    as (j & e & Hj & Hfault & Hrun).
  exists j, e. split; [done|]. split; [done|]. split.
  - intros Hbefore.
    assert (j = rank) as ->.
    { destruct (decide (j = rank)) as [|Hne]; [done|].
      destruct (Hbefore j) as (b & x & Hb & Hx); [lia|].
      destruct Hfault as [[? _]|(b' & ? & ? & _)]; congruence. }
    split; [done|].
    destruct Hfault as [[_ ?]|(b' & ? & _)]; congruence.
  - unfold on_evaluate_merge. unfold_store. by rewrite Hrun.
Qed.

(** The same on the whole callback: the process evaluates its shard,
    publishes, passes the barrier, and raises in the merge. *)
Lemma on_evaluate_missing_slot (p : processor Logit Score Entries) entries
    self_metrics (model : batch Row → generation Logit Score) dl self_rank
    world_size others rank x (w : world Logit Score) :
  eval_loop p model dl ([], []) = inr x →
  rank < world_size →
  others (<[rank_key self_rank := pickle_dumps x]> (redis w)) !! rank_key rank = None →
  ∃ w' e,
    on_evaluate pickle_dumps pickle_loads_bytes p entries self_metrics model dl
      self_rank world_size others w = (w', inl e).
Proof.
  intros Hrun Hlt Hmiss.
  unfold on_evaluate, on_evaluate_shard, publish, on_evaluate_merge.
  unfold_store. rewrite Hrun. cbn [fst snd].
  set (w2 := World (others _) _).
  destruct (collect_fails pickle_loads_bytes world_size rank w2 Hlt Hmiss)
    as (j & e & _ & _ & ->).
  by eexists _, _.
Qed.
End Faults.

(** ** Concrete runs *)

Lemma two_published_slots : published RefCodec.dumps (redis two_published) two_shards.
Proof.
intros rank x Hx. destruct rank as [|[|rank]]; inversion Hx; subst;
  vm_compute; reflexivity.
Defined.

Lemma collect_after_publish_witness :
  published RefCodec.dumps (redis two_published) two_shards ∧
  collect RefCodec.loads 2 two_published =
    (World (redis two_published)
           (trace two_published ++ (EvGet ∘ rank_key <$> seq 0 2)),
     inr (["a"; "b"; "c"], [])) ∧
  length ["a"; "b"; "c"] = 3 ∧
  ∀ w0 c,
    rtc (step RefCodec.dumps RefCodec.loads) (start w0 two_shards) c →
    (∀ rank r, procs c !! rank = Some (Collected r) →
               r = inr (["a"; "b"; "c"], [])) ∧
    (∃ c', rtc (step RefCodec.dumps RefCodec.loads) c c' ∧
           procs c' = replicate 2 (Collected (inr (["a"; "b"; "c"], [])))).
Proof.
  split; [exact two_published_slots|].
  exact (collect_after_publish RefCodec.dumps RefCodec.loads
           RefCodecFacts.loads_dumps two_shards two_published two_published_slots).
Defined.

Lemma best_replaced_iff_any_ge_witness :
∃ replaced : bool,
  any_ge new_em_f1 best_em_f1 (keys best_em_f1) = inr replaced ∧
  select_step (Some best_em_f1) new_em_f1 =
    inr (Some (if replaced then new_em_f1 else best_em_f1)) ∧
  (replaced = true ↔
     ∃ k a b, k ∈ keys best_em_f1 ∧ dict_get k best_em_f1 = Some a ∧
              dict_get k new_em_f1 = Some b ∧ (a <= b)%Q).
Proof.
apply (best_replaced_iff_any_ge best_em_f1 new_em_f1).
intros k Hk. apply list_elem_of_In in Hk. simpl in Hk.
destruct Hk as [<-|[<-|[]]]; eexists; reflexivity.
Defined.

(** One key on which the new record is not worse is enough: the record that
  is worse on 'em' and equal on 'f1' replaces the best. *)
Example worse_on_em_still_replaces :
select_step (Some best_em_f1) new_em_f1 = inr (Some new_em_f1).
Proof. reflexivity. Qed.

Lemma ten_folds_ok i :
i < n_splits →
∃ ms, ten_folds i = inr ms ∧ select_best ms = inr (Some (ten_bests i)).
Proof. intros _. eexists. split; reflexivity. Defined.

Lemma best_is_per_fold_witness :
WriteText (result_path "ynat" 3) [result_line fmt_ratio ("em", (80 # 100)%Q)]
  ∈ (train fmt_ratio "ynat" 0 ten_folds).1 ∧
WriteText (result_path "ynat" 4) [result_line fmt_ratio ("em", (79 # 100)%Q)]
  ∈ (train fmt_ratio "ynat" 0 ten_folds).1 ∧
best_after fmt_ratio "ynat" 0 ten_folds 4 = inr (Some (em (79 # 100)%Q)) ∧
select_best [em (80 # 100)%Q; em (79 # 100)%Q] = inr (Some (em (80 # 100)%Q)).
Proof.
apply (best_is_per_fold fmt_ratio "ynat" ten_folds ten_bests);
  [exact ten_folds_ok | reflexivity | reflexivity].
Defined.

(** C3 as the specification states it fails: in the run of ten folds where
  fold 3 yields [{em: 0.80}] and fold 4 yields [{em: 0.79}], the record the
  controller holds after fold 4 is [{em: 0.79}], not [{em: 0.80}]; and at
  the end of the run it holds the last fold's record. *)
Lemma fold4_does_not_keep_fold3 :
best_after fmt_ratio "ynat" 0 ten_folds 4 = inr (Some (em (79 # 100)%Q)) ∧
best_after fmt_ratio "ynat" 0 ten_folds 4 ≠ inr (Some (em (80 # 100)%Q)) ∧
(train fmt_ratio "ynat" 0 ten_folds).2 = inr (Some (em (1 # 2)%Q)) ∧
(train fmt_ratio "ynat" 0 ten_folds).2 ≠ inr (Some (em (80 # 100)%Q)).
Proof.
split; [vm_compute; reflexivity|].
split; [vm_compute; discriminate|].
split; [vm_compute; reflexivity|].
vm_compute; discriminate.
Qed.

Lemma two_workers_collect_witness :
(published RefCodec.dumps (redis two_published) two_shards →
 (collect RefCodec.loads 2 two_published).2 = inr (["a"; "b"; "c"], [])) ∧
(∀ c, rtc (step RefCodec.dumps RefCodec.loads) (start two_published two_shards) c →
   (∀ rank r, procs c !! rank = Some (Collected r) →
              r = inr (["a"; "b"; "c"], [])) ∧
   (∃ c', rtc (step RefCodec.dumps RefCodec.loads) c c' ∧
          procs c' = [Collected (inr (["a"; "b"; "c"], []));
                      Collected (inr (["a"; "b"; "c"], []))])).
Proof.
exact (two_workers_collect RefCodec.dumps RefCodec.loads
         RefCodecFacts.loads_dumps two_published).
Defined.

Lemma missing_slot_ends_run_witness :
1 < 2 ∧
redis rank0_published !! rank_key 1 = None ∧
∃ (j : nat) e,
  (j ≤ 1)%nat ∧ slot_fault RefCodec.loads (redis rank0_published) j e ∧
  ((∀ i, i < 1 → ∃ b x, redis rank0_published !! rank_key i = Some b ∧
                        RefCodec.loads b = Some x) →
   j = 1 ∧ e = TypeError) ∧
  on_evaluate_merge RefCodec.loads ynat_processor tt [] 2 rank0_published =
    (World (redis rank0_published)
           (trace rank0_published ++ (EvGet ∘ rank_key <$> seq 0 (S j))),
     inl e).
Proof.
assert (1 < 2) as Hlt by lia.
assert (redis rank0_published !! rank_key 1 = None) as Hmiss
  by (vm_compute; reflexivity).
split; [exact Hlt|]. split; [exact Hmiss|].
exact (proj1 (missing_slot_ends_run RefCodec.loads ynat_processor tt [] 2 1
                rank0_published Hlt Hmiss)).
Defined.

Lemma small_dataloader_rows data :
data ∈ small_dataloader →
length (sequences (constant_model data)) = length (input_ids data).
Proof.
intros Hin. apply list_elem_of_In in Hin. simpl in Hin.
destruct Hin as [<-|[<-|[]]]; reflexivity.
Defined.

Lemma assertion_holds_witness :
∃ logits scores,
  eval_loop mrc_processor constant_model small_dataloader ([], []) =
    inr (logits, scores) ∧
  length logits = shard_size small_dataloader ∧
  ∀ rank (w : world string Q),
    on_evaluate_shard RefCodec.dumps mrc_processor constant_model
      small_dataloader rank w =
      (World (<[rank_key rank := RefCodec.dumps (logits, scores)]> (redis w))
             (trace w ++ [EvSet (rank_key rank) (RefCodec.dumps (logits, scores))]),
       inr tt).
Proof.
exact (proj2 (assertion_holds RefCodec.dumps mrc_processor constant_model
                small_dataloader small_dataloader_rows)).
Defined.

Lemma scores_by_task_witness :
eval_loop mrc_processor constant_model small_dataloader ([], []) =
  inr (["a"; "a"; "a"], [(1 # 2)%Q; (1 # 2)%Q; (1 # 2)%Q]) ∧
([(1 # 2)%Q; (1 # 2)%Q; (1 # 2)%Q] ≠ [] ↔
   (task mrc_processor = "mrc" ∨ task mrc_processor = "vinca") ∧
   ∃ data, data ∈ small_dataloader ∧ sequences_scores (constant_model data) ≠ []).
Proof.
assert (eval_loop mrc_processor constant_model small_dataloader ([], []) =
          inr (["a"; "a"; "a"], [(1 # 2)%Q; (1 # 2)%Q; (1 # 2)%Q])) as Hrun
  by reflexivity.
split; [exact Hrun|].
exact (proj2 (scores_by_task mrc_processor constant_model small_dataloader
                _ _ Hrun)).
Defined.

(** C7 as the specification states it fails on an empty shard: the task is
  'mrc', the loop has no batch to run on, and the score list the worker
  publishes is empty. *)
Lemma mrc_empty_shard_no_scores :
task mrc_processor = "mrc" ∧
(∀ rank (w : world string Q),
   on_evaluate_shard RefCodec.dumps mrc_processor constant_model [] rank w =
     (World (<[rank_key rank := RefCodec.dumps ([], [])]> (redis w))
            (trace w ++ [EvSet (rank_key rank) (RefCodec.dumps ([], []))]),
      inr tt)) ∧
¬ (∀ logits scores,
     eval_loop mrc_processor constant_model [] ([], []) = inr (logits, scores) →
     (scores ≠ [] ↔ task mrc_processor = "mrc" ∨ task mrc_processor = "vinca")).
Proof.
split; [reflexivity|]. split; [reflexivity|].
intros H. destruct (H [] [] eq_refl) as [_ Hback].
apply Hback; [by left|reflexivity].
Qed.

Lemma result_file_only_on_rank0_witness :
writes (train fmt_ratio "ynat" 0 ten_folds).1 =
  (λ i, WriteText (output_dir +:+ "/" +:+ pretty i +:+ "/result_" +:+ "ynat" +:+ ".txt")
                  ((λ kv, kv.1 +:+ "=" +:+ fmt_ratio kv.2 +:+ newline) <$> ten_bests i))
    <$> seq 0 n_splits ∧
∀ any_trainer,
  (0 ≠ 0)%Z → writes (train fmt_ratio "ynat" 0 any_trainer).1 = [].
Proof.
exact (result_file_only_on_rank0 fmt_ratio "ynat" 0 ten_folds ten_bests ten_folds_ok).
Defined.

Lemma two_published_collect :
collect RefCodec.loads 2 two_published =
  (World (redis two_published)
         (trace two_published ++ (EvGet ∘ rank_key <$> seq 0 2)),
   inr (["a"; "b"; "c"], [])).
Proof.
exact (collect_published RefCodec.dumps RefCodec.loads RefCodecFacts.loads_dumps
         two_shards two_published two_published_slots).
Defined.

Lemma empty_scores_become_none_witness :
∃ arg,
  (([] : list Q) = [] → arg = None) ∧
  (([] : list Q) ≠ [] → arg = Some []) ∧
  on_evaluate_merge RefCodec.loads ynat_processor tt [] 2 two_published =
    (World (redis two_published)
           ((trace two_published ++ (EvGet ∘ rank_key <$> seq 0 2)) ++
            [EvComputeMetrics ["a"; "b"; "c"] arg]),
     match compute_metrics ynat_processor ["a"; "b"; "c"] tt arg with
     | inl e => inl e
     | inr m => inr ([] ++ [m])
     end).
Proof.
exact (empty_scores_become_none RefCodec.loads ynat_processor tt [] 2
         two_published _ _ _ two_published_collect).
Defined.

(** * Further properties of the code *)

(** ** The shard evaluator *)
Section EvaluatorFacts.
Context {Logit Score Row Entries : Type}.
Variable pickle_dumps : list Logit * list Score → bytes.
Variable pickle_loads_bytes : bytes → option (list Logit * list Score).

Implicit Types (p : processor Logit Score Entries)
  (model : batch Row → generation Logit Score) (dl : list (batch Row)).

Lemma eval_loop_ok p model dl :
  Forall (rows_ok model) dl →
  eval_loop p model dl ([], []) = inr (shard_of p model dl).
Proof.
  intros Hall.
  destruct (eval_loop_total p model dl ([], []) Hall) as (logits & scores & Hrun & _).
  rewrite Hrun. by apply eval_loop_inv in Hrun as [-> ->].
Qed.

Lemma eval_loop_stops p model dl acc data :
  data ∈ dl → ¬ rows_ok model data →
  eval_loop p model dl acc = inl AssertionError.
Proof.
  revert acc. induction dl as [|d dl IH]; intros acc Hin Hbad.
  { by apply not_elem_of_nil in Hin. }
  simpl. unfold eval_batch. case_decide as Hd; [|done].
  apply elem_of_cons in Hin as [->|Hin]; [done|]. by apply IH.
Qed.


(** X2. When the assertion of line 61 fails on some batch, the callback
    raises [AssertionError] before line 65: the process stores nothing,
    does not reach the barrier, reads no slot and calls no metric. *)
Theorem failed_assertion_publishes_nothing p entries self_metrics model dl
    rank world_size others (w : world Logit Score) data :
  data ∈ dl →
  length (sequences (model data)) ≠ length (input_ids data) →
  on_evaluate pickle_dumps pickle_loads_bytes p entries self_metrics model dl
    rank world_size others w = (w, inl AssertionError).
Proof.
  intros Hin Hbad.
  unfold on_evaluate, on_evaluate_shard. unfold_store.
  by rewrite (eval_loop_stops p model dl ([], []) data Hin Hbad).
Qed.
End EvaluatorFacts.

(** ** The whole callback *)
Section CallbackFacts.
Context {Logit Score Row Entries : Type}.
Variable pickle_dumps : list Logit * list Score → bytes.
Variable pickle_loads_bytes : bytes → option (list Logit * list Score).
Hypothesis loads_dumps : ∀ x, pickle_loads_bytes (pickle_dumps x) = Some x.

Implicit Types (p : processor Logit Score Entries)
  (model : batch Row → generation Logit Score) (dl : list (batch Row)).

Lemma on_evaluate_spec p entries self_metrics model dl rank others
    (w : world Logit Score) shards :
  Forall (rows_ok model) dl →
  published pickle_dumps
    (others (<[rank_key rank := pickle_dumps (shard_of p model dl)]> (redis w))) shards →
  on_evaluate pickle_dumps pickle_loads_bytes p entries self_metrics model dl
    rank (length shards) others w =
    (World (others (<[rank_key rank := pickle_dumps (shard_of p model dl)]> (redis w)))
           (trace w ++
            EvSet (rank_key rank) (pickle_dumps (shard_of p model dl)) ::
            EvBarrier ::
            (EvGet ∘ rank_key <$> seq 0 (length shards)) ++
            [EvComputeMetrics (concat shards.*1) (output_scores_arg (concat shards.*2))]),
     match compute_metrics p (concat shards.*1) entries
             (output_scores_arg (concat shards.*2)) with
     | inl e => inl e
     | inr m => inr (self_metrics ++ [m])
     end).
Proof.
  intros Hrows Hpub.
  unfold on_evaluate, on_evaluate_shard, publish, on_evaluate_merge.
  unfold_store. rewrite (eval_loop_ok p model dl Hrows). cbn [fst snd].
  set (w2 := World (others _) _).
  rewrite (collect_published pickle_dumps pickle_loads_bytes loads_dumps shards w2 Hpub).
  unfold merged. cbn [fst snd redis trace]. subst w2. cbn [redis trace].
  rewrite <- !app_assoc. cbn [app].
  by destruct (compute_metrics p _ entries _).
Qed.

(** X3. One evaluation round in one process, when no assertion fails and
    the store holds every rank's partial result once the barrier returns:
    the process stores its own partial result under its rank, passes the
    barrier, reads the slots 0..N-1 once each in that order, calls the
    metric once on the rank-ordered concatenation, and appends exactly one
    record to [self.metrics]; a fault of the metric comes out unchanged and
    appends nothing. *)
Theorem on_evaluate_round p entries self_metrics model dl rank others
    (w : world Logit Score) shards :
  (∀ data, data ∈ dl → length (sequences (model data)) = length (input_ids data)) →
  published pickle_dumps
    (others (<[rank_key rank := pickle_dumps (shard_of p model dl)]> (redis w))) shards →
  on_evaluate pickle_dumps pickle_loads_bytes p entries self_metrics model dl
    rank (length shards) others w =
    (World (others (<[rank_key rank := pickle_dumps (shard_of p model dl)]> (redis w)))
           (trace w ++
            EvSet (rank_key rank) (pickle_dumps (shard_of p model dl)) ::
            EvBarrier ::
            (EvGet ∘ rank_key <$> seq 0 (length shards)) ++
            [EvComputeMetrics (concat shards.*1) (output_scores_arg (concat shards.*2))]),
     match compute_metrics p (concat shards.*1) entries
             (output_scores_arg (concat shards.*2)) with
     | inl e => inl e
     | inr m => inr (self_metrics ++ [m])
     end).
Proof.
  intros Hrows Hpub. apply on_evaluate_spec; [|done].
  by apply Forall_forall.
Qed.

(** X4. A group of one process: with world size 1, rank 0 and nobody
    else touching the store, the callback computes the metric on exactly the
    outputs of its own shard, in dataloader order, whatever the store held
    under key "0" before. *)
Theorem on_evaluate_alone p entries self_metrics model dl (w : world Logit Score) :
  (∀ data, data ∈ dl → length (sequences (model data)) = length (input_ids data)) →
  (on_evaluate pickle_dumps pickle_loads_bytes p entries self_metrics model dl
     0 1 id w).2 =
    match compute_metrics p (concat (sequences ∘ model <$> dl)) entries
            (output_scores_arg (gathered_scores p model dl)) with
    | inl e => inl e
    | inr m => inr (self_metrics ++ [m])
    end.
Proof.
  intros Hrows.
  pose proof (on_evaluate_spec p entries self_metrics model dl 0 id w
                [shard_of p model dl]) as Hspec.
  cbn [length] in Hspec. rewrite Hspec.
  - cbn [snd]. unfold shard_of. csimpl. by rewrite !app_nil_r.
  - by apply Forall_forall.
  - intros [|rank] x Hx; simplify_eq/=. apply lookup_insert_eq.
Qed.

(** X5. End to end order: when every rank has run the loop on its own
    dataloader without a failed assertion, each rank publishes the sequences
    of its batches in dataloader order, and every worker that collects in
    the round holds the predictions rank by rank, and within a rank batch by
    batch, together with the scores gathered in the same order. *)
Theorem aggregated_in_rank_and_batch_order p model (dls : list (list (batch Row)))
    (w0 : world Logit Score) c rank r :
  Forall (Forall (rows_ok model)) dls →
  rtc (step pickle_dumps pickle_loads_bytes)
      (start w0 (shard_of p model <$> dls)) c →
  procs c !! rank = Some (Collected r) →
  r = inr (concat ((λ dl, concat (sequences ∘ model <$> dl)) <$> dls),
           concat (gathered_scores p model <$> dls)) ∧
  ∀ k dl (w : world Logit Score),
    dls !! k = Some dl →
    redis (on_evaluate_shard pickle_dumps p model dl k w).1 !! rank_key k =
      Some (pickle_dumps (concat (sequences ∘ model <$> dl), gathered_scores p model dl)).
Proof.
  intros Hrows Hc Hr. split.
  - rewrite (round_collected pickle_dumps pickle_loads_bytes loads_dumps _ _ _ _ _ Hc Hr).
    unfold merged. by rewrite <- !list_fmap_compose.
  - intros k dl w Hk. unfold on_evaluate_shard. unfold_store.
    rewrite eval_loop_ok by by eapply Forall_lookup_1.
    apply publish_own.
Qed.
End CallbackFacts.

(** ** The store and the round *)
Section StoreFacts.
Context {Logit Score : Type}.
Variable pickle_dumps : list Logit * list Score → bytes.
Variable pickle_loads_bytes : bytes → option (list Logit * list Score).

(** X6. Slots of different ranks do not interfere: two processes of
    different ranks leave the same store whichever stores first, and each
    slot then holds its own rank's value; a process that stores twice
    overwrites its earlier value. *)
Theorem publishes_commute rank rank' x x' (w : world Logit Score) :
  rank ≠ rank' →
  redis (publish pickle_dumps rank' x' (publish pickle_dumps rank x w).1).1 =
    redis (publish pickle_dumps rank x (publish pickle_dumps rank' x' w).1).1 ∧
  redis (publish pickle_dumps rank' x' (publish pickle_dumps rank x w).1).1
    !! rank_key rank = Some (pickle_dumps x) ∧
  redis (publish pickle_dumps rank' x' (publish pickle_dumps rank x w).1).1
    !! rank_key rank' = Some (pickle_dumps x') ∧
  redis (publish pickle_dumps rank x' (publish pickle_dumps rank x w).1).1 =
    redis (publish pickle_dumps rank x' w).1.
Proof.
  intros Hne.
  assert (rank_key rank ≠ rank_key rank') as Hkey.
  { intros Heq. by apply Hne, rank_key_inj. }
  unfold publish. unfold_store. cbn [fst redis].
  split; [by apply insert_insert_ne|].
  split; [by rewrite lookup_insert_ne, lookup_insert_eq|].
  split; [by rewrite lookup_insert_eq|].
  apply insert_insert_eq.
Qed.

Lemma collect_loop_reads ranks acc (w : world Logit Score) :
  ∃ n, (n ≤ length ranks)%nat ∧
       (collect_loop pickle_loads_bytes ranks acc w).1 =
         World (redis w) (trace w ++ (EvGet ∘ rank_key <$> take n ranks)) ∧
       (∀ x, (collect_loop pickle_loads_bytes ranks acc w).2 = inr x →
             n = length ranks).
Proof.
  revert acc w. induction ranks as [|i ranks IH]; intros acc w.
  - exists 0. split; [done|]. split; [|done].
    csimpl. unfold_store. destruct w. csimpl. by rewrite app_nil_r.
  - csimpl. unfold read_slot, pickle_loads. unfold_store. cbn [fst snd redis trace].
    destruct (redis w !! rank_key i) as [b|].
    + destruct (pickle_loads_bytes b) as [[logits scores]|].
      * destruct (IH (acc.1 ++ logits, acc.2 ++ scores)
                     (World (redis w) (trace w ++ [EvGet (rank_key i)])))
          as (n & Hn & Hw & Hok).
        exists (S n). split; [simpl; lia|].
        destruct (collect_loop _ ranks _ _) as [w' res]. simpl in *. subst w'.
        split; [by rewrite <- app_assoc|].
        intros x Hx. f_equal. by eapply Hok.
      * exists 1. split; [simpl; lia|]. split; done.
    + exists 1. split; [simpl; lia|]. split; done.
Qed.

(** X7. [collect] only reads: whether it returns or raises, the store is
    as it was, and what it has done is to read the slots of an initial
    segment of the ranks 0, 1, 2, ... once each in that order; when it
    returns, that segment is all of 0..N-1. *)
Theorem collect_only_reads world_size (w : world Logit Score) :
  ∃ n, (n ≤ world_size)%nat ∧
       (collect pickle_loads_bytes world_size w).1 =
         World (redis w) (trace w ++ (EvGet ∘ rank_key <$> seq 0 n)) ∧
       (∀ x, (collect pickle_loads_bytes world_size w).2 = inr x → n = world_size).
Proof.
  unfold collect.
  destruct (collect_loop_reads (seq 0 world_size) ([], []) w) as (n & Hn & Hw & Hok).
  rewrite length_seq in Hn, Hok.
  exists n. split; [done|]. split; [|done].
  rewrite Hw, take_seq. by replace (n `min` world_size) with n by lia.
Qed.

Abbreviation step := (step pickle_dumps pickle_loads_bytes).




End StoreFacts.

(** ** Selecting the best record *)

Lemma select_loop_member ob ms ob' :
  select_loop ob ms = inr ob' →
  (ob' = ob ∧ (ob = None → ms = [])) ∨ (∃ b, ob' = Some b ∧ b ∈ ms).
Proof.
  revert ob. induction ms as [|m ms IH]; intros ob Hrun; simplify_eq/=; [by left|].
  destruct (select_step ob m) as [e|ob1] eqn:Hstep; [done|].
  assert (ob1 = ob ∧ ob ≠ None ∨ ob1 = Some m) as Hob1.
  { unfold select_step in Hstep. destruct ob as [a|]; [|right; congruence].
    destruct (any_ge m a (keys a)) as [e|[|]]; simplify_eq; [by right|by left]. }
  destruct (IH _ Hrun) as [ [-> Hnone] | (b & -> & Hb) ].
  - destruct Hob1 as [ [-> Hsome] | ->]; [by left|].
    right. exists m. split; [done|by left].
  - right. exists b. split; [done|by right].
Qed.

(** X9. The record a fold keeps is one of the records its evaluation
    rounds produced; it keeps none exactly when there was no round. *)
Theorem best_is_one_of_the_rounds metrics ob :
  select_best metrics = inr ob →
  match ob with
  | Some b => b ∈ metrics
  | None => metrics = []
  end.
Proof.
  intros [ [-> Hnone] | (b & -> & Hb) ]%select_loop_member; [by apply Hnone|done].
Qed.



Lemma select_loop_app ob ms1 ms2 :
  select_loop ob (ms1 ++ ms2) =
    match select_loop ob ms1 with
    | inl e => inl e
    | inr ob1 => select_loop ob1 ms2
    end.
Proof.
  revert ob. induction ms1 as [|m ms1 IH]; intros ob; [done|].
  simpl. by destruct (select_step ob m).
Qed.

Lemma single_key_step k a u :
  select_step (Some [(k, a)]) [(k, u)] =
    inr (Some [(k, if Qle_bool a u then u else a)]).
Proof.
  unfold select_step. simpl. rewrite !decide_True by done.
  by destruct (Qle_bool a u).
Qed.

Lemma single_key_loop k a vs :
  ∃ v, select_loop (Some [(k, a)]) ((λ u, [(k, u)]) <$> vs) = inr (Some [(k, v)]) ∧
       v ∈ a :: vs ∧ (a <= v)%Q ∧ Forall (λ u, (u <= v)%Q) vs.
Proof.
  revert a. induction vs as [|u vs IH]; intros a.
  - exists a. split; [done|]. split; [by left|]. split; [apply Qle_refl|done].
  - rewrite fmap_cons. cbn [select_loop]. rewrite single_key_step.
    destruct (Qle_bool a u) eqn:Hle.
    + apply Qle_bool_iff in Hle.
      destruct (IH u) as (v & Hrun & Hin & Huv & Hall).
      exists v. split; [done|]. split; [by right|].
      split; [by eapply Qle_trans|by constructor].
    + assert (u < a)%Q as Hlt.
      { apply Qnot_le_lt. intros H%Qle_bool_iff. congruence. }
      destruct (IH a) as (v & Hrun & Hin & Hav & Hall).
      exists v. split; [done|].
      split. { apply elem_of_cons in Hin as [->|Hin]; [by left|by do 2 right]. }
      split; [done|]. constructor; [|done].
      eapply Qle_trans; [by apply Qlt_le_weak|done].
Qed.


(** X12. Ties go to the later round: with a single metric, the record
    of the last round is kept whenever its value is at least every earlier
    value, also when it only equals the best so far. *)
Theorem single_metric_tie_goes_to_last k (vs : list Q) (v : Q) :
  Forall (λ u, (u <= v)%Q) vs →
  select_best ((λ u, [(k, u)]) <$> (vs ++ [v])) = inr (Some [(k, v)]).
Proof.
  intros Hall. unfold select_best. rewrite fmap_app, select_loop_app.
  destruct vs as [|a vs]; [done|].
  destruct (single_key_loop k a vs) as (b & Hrun & Hin & _ & _).
  change (select_loop None ((λ u, [(k, u)]) <$> a :: vs))
    with (select_loop (Some [(k, a)]) ((λ u, [(k, u)]) <$> vs)).
  rewrite Hrun. cbn [fmap list_fmap select_loop]. rewrite single_key_step.
  rewrite Forall_forall in Hall. specialize (Hall b Hin).
  apply Qle_bool_iff in Hall. by rewrite Hall.
Qed.

Lemma any_ge_key_error metric best ks :
  (∀ k, k ∈ ks → is_Some (dict_get k best)) →
  (any_ge metric best ks = inl KeyError ↔
     ∃ pre k post,
       ks = pre ++ k :: post ∧ dict_get k metric = None ∧
       Forall (λ k', ∃ b m, dict_get k' best = Some b ∧
                            dict_get k' metric = Some m ∧ (m < b)%Q) pre) ∧
  (∀ e, any_ge metric best ks = inl e → e = KeyError).
Proof.
  induction ks as [|k ks IH]; intros Hks.
  { split; [|done]. split; [done|]. intros (pre & k & post & Heq & _).
    by destruct pre. }
  destruct (Hks k) as [b Hb]; [by left|].
  destruct IH as [IH1 IH2]; [intros k' Hk'; apply Hks; by right|].
  simpl. rewrite Hb.
  destruct (dict_get k metric) as [m|] eqn:Hm.
  - destruct (Qle_bool b m) eqn:Hle.
    + split; [|done]. split; [done|].
      intros (pre & k' & post & Heq & Hnone & Hpre).
      destruct pre as [|k1 pre]; simplify_eq/=; try congruence.
      apply Forall_cons in Hpre as [(b' & m' & ? & ? & Hlt) _]. simplify_eq.
      apply Qlt_not_le in Hlt. exfalso. apply Hlt. by apply Qle_bool_iff.
    + split; [|done]. rewrite IH1. split.
      * intros (pre & k' & post & -> & Hnone & Hpre).
        exists (k :: pre), k', post. split; [done|]. split; [done|].
        constructor; [|done]. exists b, m. split; [done|]. split; [done|].
        apply Qnot_le_lt. intros H%Qle_bool_iff. congruence.
      * intros (pre & k' & post & Heq & Hnone & Hpre).
        destruct pre as [|k1 pre]; simplify_eq/=; try congruence.
        apply Forall_cons in Hpre as [_ Hpre]. by exists pre, k', post.
  - split; [|by intros e [= <-]]. split; [|done]. intros _.
    by exists [], k, ks.
Qed.

(** X13. The only fault of the selection is the [KeyError] of line 138,
    and a new record raises it exactly when it lacks a metric of the best
    record while being strictly worse on every metric that comes before it:
    a metric on which the new record is not worse, met earlier, ends the
    comparison before the missing one is looked up. *)
Theorem selection_key_error (best metric : metric_record) :
  (select_step (Some best) metric = inl KeyError ↔
     ∃ pre k post,
       keys best = pre ++ k :: post ∧ dict_get k metric = None ∧
       Forall (λ k', ∃ b m, dict_get k' best = Some b ∧
                            dict_get k' metric = Some m ∧ (m < b)%Q) pre) ∧
  (∀ e, select_step (Some best) metric = inl e → e = KeyError).
Proof.
  destruct (any_ge_key_error metric best (keys best)) as [Hiff Honly].
  { intros k Hk. by apply dict_get_keys. }
  unfold select_step. split.
  - rewrite <- Hiff. destruct (any_ge metric best (keys best)) as [e|[|]]; split;
      intros; simplify_eq; done.
  - intros e He. apply Honly.
    by destruct (any_ge metric best (keys best)) as [e'|[|]]; simplify_eq.
Qed.

(** ** The fold loop *)
Section FoldLoopFacts.
Variable fmt : Q → string.
Variable task : string.

Lemma train_folds_app local_rank trainer_train folds1 folds2 b log :
  train_folds fmt task local_rank trainer_train (folds1 ++ folds2) b log =
    match train_folds fmt task local_rank trainer_train folds1 b log with
    | (log', inl e) => (log', inl e)
    | (log', inr b') => train_folds fmt task local_rank trainer_train folds2 b' log'
    end.
Proof.
  revert b log. induction folds1 as [|i folds1 IH]; intros b log; [done|].
  simpl. by destruct (fold_body fmt task local_rank trainer_train i log) as [log' [e|b']].
Qed.

Lemma seq_split_at i n : i < n → seq 0 n = seq 0 i ++ i :: seq (S i) (n - S i).
Proof.
  intros Hi. replace n with (i + S (n - S i)) at 1 by lia.
  by rewrite seq_app.
Qed.

(** X14. A fold without any evaluation round stops the rank-0 process:
    if the folds before fold [i] went through and [trainer.train()] of fold
    [i] returns with no record, the process saves the model of fold [i],
    creates the fold's result file with nothing in it, and ends with the
    [AttributeError] of [None.items()], leaving the later folds undone. *)
Theorem fold_without_round_stops_rank0 trainer_train best i :
  i < n_splits →
  (∀ k, k < i → ∃ ms, trainer_train k = inr ms ∧
                      select_best ms = inr (Some (best k))) →
  trainer_train i = inr [] →
  train fmt task 0 trainer_train =
    ((seq 0 i ≫= fold_events fmt task 0 best) ++
       [SaveModel (fold_dir i); WriteText (result_path task i) []],
     inl AttributeError).
Proof.
  intros Hi Hok Hempty. unfold train.
  rewrite (seq_split_at i n_splits Hi), train_folds_app.
  rewrite (train_folds_ok fmt task _ _ best).
  - cbn [app]. simpl. unfold fold_body. rewrite Hempty. simpl.
    by rewrite <- app_assoc.
  - apply Forall_forall. intros k Hk%elem_of_seq. apply Hok. lia.
Qed.

Lemma train_folds_other_rank local_rank trainer_train folds b log :
  local_rank ≠ 0%Z →
  Forall (λ i, ∃ ms ob, trainer_train i = inr ms ∧ select_best ms = inr ob) folds →
  ∃ ob, train_folds fmt task local_rank trainer_train folds b log =
          (log ++ (SaveModel ∘ fold_dir <$> folds), inr ob).
Proof.
  intros Hrank Hall. revert b log.
  induction Hall as [|i folds (ms & ob & Hms & Hob) _ IH]; intros b log.
  - exists b. by rewrite app_nil_r.
  - simpl. unfold fold_body. rewrite Hms, Hob, decide_False by done.
    destruct (IH ob (log ++ [SaveModel (fold_dir i)])) as (ob' & ->).
    exists ob'. by rewrite <- app_assoc.
Qed.

(** X15. On a process whose local rank is not 0, a fold without any
    evaluation round is harmless: as long as no fold raises in training or
    in the selection, the process goes through all ten folds, saves the
    model of each in order, writes nothing else, and ends with what the
    selection of the last fold gave. *)
Theorem other_ranks_go_through local_rank trainer_train :
  local_rank ≠ 0%Z →
  (∀ i, i < n_splits → ∃ ms ob, trainer_train i = inr ms ∧ select_best ms = inr ob) →
  (train fmt task local_rank trainer_train).1 =
    SaveModel ∘ fold_dir <$> seq 0 n_splits ∧
  ∀ ms, trainer_train 9 = inr ms →
        (train fmt task local_rank trainer_train).2 = select_best ms.
Proof.
  intros Hrank Hok.
  assert (∀ j n, (j + n ≤ n_splits)%nat →
            Forall (λ i, ∃ ms ob, trainer_train i = inr ms ∧ select_best ms = inr ob)
                   (seq j n)) as Hall.
  { intros j n Hn. apply Forall_forall. intros i Hi%elem_of_seq. apply Hok. lia. }
  unfold train. split.
  - destruct (train_folds_other_rank local_rank trainer_train (seq 0 n_splits) None []
                Hrank) as (ob & ->); [|done].
    apply Hall. lia.
  - intros ms Hms.
    change (seq 0 n_splits) with (seq 0 9 ++ [9]). rewrite train_folds_app.
    destruct (train_folds_other_rank local_rank trainer_train (seq 0 9) None []
                Hrank) as (ob & ->).
    { apply Hall. unfold n_splits. lia. }
    simpl. unfold fold_body. rewrite Hms.
    destruct (Hok 9) as (ms' & ob' & Hms' & Hob'); [unfold n_splits; lia|].
    rewrite Hms in Hms'. simplify_eq. rewrite Hob'. cbn [fst snd].
    by rewrite decide_False by done.
Qed.

(** X16. A run in which every fold trains and finds a best record: the
    process goes through the folds in the order 0..9; for each it saves the
    model into the fold's directory and then, on local rank 0 only, writes
    the fold's result file; [best_metric] at the end is the best record of
    the last fold, not the best over the folds. *)
Theorem successful_run_log local_rank trainer_train best :
  (∀ i, i < n_splits → ∃ ms, trainer_train i = inr ms ∧
                             select_best ms = inr (Some (best i))) →
  train fmt task local_rank trainer_train =
    (seq 0 n_splits ≫=
       (λ i, SaveModel (fold_dir i) ::
             (if decide (local_rank = 0%Z)
              then [WriteText (result_path task i) (result_line fmt <$> best i)]
              else [])),
     inr (Some (best 9))).
Proof.
  intros Hok. unfold train. rewrite (train_folds_ok fmt task _ _ best); [done|].
  apply Forall_forall. intros i Hi%elem_of_seq. apply Hok. lia.
Qed.

Lemma string_length_app (s t : string) :
  String.length (s +:+ t) = String.length s + String.length t.
Proof. induction s as [|a s IH]; simpl; [done|by rewrite IH]. Qed.

Lemma string_app_inv_tail (s1 s2 t : string) : s1 +:+ t = s2 +:+ t → s1 = s2.
Proof.
  revert s2. induction s1 as [|a s1 IH]; intros [|b s2] Heq; simpl in Heq.
  - done.
  - apply (f_equal String.length) in Heq.
    rewrite ?string_length_app in Heq. simpl in Heq.
    rewrite ?string_length_app in Heq. lia.
  - apply (f_equal String.length) in Heq.
    rewrite ?string_length_app in Heq. simpl in Heq.
    rewrite ?string_length_app in Heq. lia.
  - injection Heq as -> Heq. f_equal. by apply IH.
Qed.

(** X17. The ten folds write to ten different places: two folds have
    the same model directory, or the same result file, only if they are the
    same fold. *)
Theorem fold_paths_distinct i j :
  (fold_dir i = fold_dir j → i = j) ∧
  (result_path task i = result_path task j → i = j).
Proof.
  assert (fold_dir i = fold_dir j → i = j) as Hdir.
  { unfold fold_dir. intros Heq.
    apply (inj (String.append output_dir)) in Heq.
    apply (inj (String.append "/")) in Heq.
    by apply (inj pretty) in Heq. }
  split; [done|].
  unfold result_path. intros Heq%string_app_inv_tail. by apply Hdir.
Qed.

(** X18. A process started without [LOCAL_RANK] in its environment (a
    plain single-process launch) takes local rank -1 and never writes a
    result file, however its run goes. *)
Theorem no_local_rank_never_writes trainer_train :
  local_rank_of None = (-1)%Z ∧
  writes (train fmt task (local_rank_of None) trainer_train).1 = [].
Proof.
  split; [done|]. unfold train. by rewrite train_folds_silent.
Qed.
End FoldLoopFacts.

(** ** Concrete runs of the further properties *)

Lemma lossy_batch_off :
  length (sequences (lossy_model (Batch [[4]]%Z [[1]]%Z))) ≠
  length (input_ids (Batch [[4]]%Z [[1]]%Z)).
Proof. simpl. lia. Defined.

Lemma lossy_batch_in : Batch [[4]]%Z [[1]]%Z ∈ small_dataloader.
Proof. right. left. Defined.

Lemma failed_assertion_publishes_nothing_witness :
  on_evaluate RefCodec.dumps RefCodec.loads mrc_processor tt [] lossy_model
    small_dataloader 0 2 id empty_world = (empty_world, inl AssertionError).
Proof.
  exact (failed_assertion_publishes_nothing RefCodec.dumps RefCodec.loads
           mrc_processor tt [] lossy_model small_dataloader 0 2 id empty_world
           _ lossy_batch_in lossy_batch_off).
Defined.

Lemma rank1_sees_both :
  published RefCodec.dumps
    (rank0_stores
       (<[rank_key 1 := RefCodec.dumps
                          (shard_of ynat_processor constant_model small_dataloader)]>
          (redis empty_world)))
    [(["a"; "b"], []); shard_of ynat_processor constant_model small_dataloader].
Proof.
  intros rank x Hx. destruct rank as [|[|rank]]; inversion Hx; subst;
    vm_compute; reflexivity.
Defined.

Lemma on_evaluate_round_witness :
  on_evaluate RefCodec.dumps RefCodec.loads ynat_processor tt [] constant_model
    small_dataloader 1 2 rank0_stores empty_world =
    (World (rank0_stores
              (<[rank_key 1 := RefCodec.dumps
                                 (shard_of ynat_processor constant_model small_dataloader)]>
                 (redis empty_world)))
           (trace empty_world ++
            EvSet (rank_key 1)
              (RefCodec.dumps (shard_of ynat_processor constant_model small_dataloader)) ::
            EvBarrier ::
            (EvGet ∘ rank_key <$> seq 0 2) ++
            [EvComputeMetrics ["a"; "b"; "a"; "a"; "a"] None]),
     inr ([] ++ [em (1 # 2)%Q])).
Proof.
  exact (on_evaluate_round RefCodec.dumps RefCodec.loads RefCodecFacts.loads_dumps
           ynat_processor tt [] constant_model small_dataloader 1 rank0_stores
           empty_world
           [(["a"; "b"], []); shard_of ynat_processor constant_model small_dataloader]
           small_dataloader_rows rank1_sees_both).
Defined.

Lemma on_evaluate_alone_witness :
  (on_evaluate RefCodec.dumps RefCodec.loads mrc_processor tt [] constant_model
     small_dataloader 0 1 id rank0_published).2 =
    inr ([] ++ [em (1 # 2)%Q]).
Proof.
  exact (on_evaluate_alone RefCodec.dumps RefCodec.loads RefCodecFacts.loads_dumps
           mrc_processor tt [] constant_model small_dataloader rank0_published
           small_dataloader_rows).
Defined.

Lemma rank0_collected_reachable :
  rtc (step RefCodec.dumps RefCodec.loads) (start empty_world two_shards)
      rank0_collected.
Proof.
  eapply rtc_l.
  { apply (step_publish RefCodec.dumps RefCodec.loads
             (start empty_world two_shards) 0 (["a"; "b"], [])). reflexivity. }
  eapply rtc_l.
  { apply (step_publish RefCodec.dumps RefCodec.loads
             (Cluster rank0_published [AtBarrier; Evaluated (["c"], [])])
             1 (["c"], [])). reflexivity. }
  eapply rtc_l.
  { apply (step_collect RefCodec.dumps RefCodec.loads both_at_barrier 0);
      reflexivity. }
  apply rtc_refl.
Defined.

Lemma rank0_holds_collected :
  procs rank0_collected !! 0 =
    Some (Collected (collect RefCodec.loads 2 two_published).2).
Proof. reflexivity. Defined.

Lemma two_dataloaders_rows : Forall (Forall (rows_ok echo_model)) two_dataloaders.
Proof. repeat constructor. Defined.

Lemma aggregated_in_rank_and_batch_order_witness :
  (collect RefCodec.loads 2 two_published).2 =
    inr (concat ((λ dl, concat (sequences ∘ echo_model <$> dl)) <$> two_dataloaders),
         concat (gathered_scores ynat_processor echo_model <$> two_dataloaders)) ∧
  ∀ k dl (w : world string Q),
    two_dataloaders !! k = Some dl →
    redis (on_evaluate_shard RefCodec.dumps ynat_processor echo_model dl k w).1
      !! rank_key k =
      Some (RefCodec.dumps (concat (sequences ∘ echo_model <$> dl),
                            gathered_scores ynat_processor echo_model dl)).
Proof.
  exact (aggregated_in_rank_and_batch_order RefCodec.dumps RefCodec.loads
           RefCodecFacts.loads_dumps ynat_processor echo_model two_dataloaders
           empty_world rank0_collected 0 _
           two_dataloaders_rows rank0_collected_reachable rank0_holds_collected).
Defined.

Lemma publishes_commute_witness :
  redis (publish RefCodec.dumps 1 (["c"], [])
           (publish RefCodec.dumps 0 (["a"; "b"], []) empty_world).1).1 =
    redis (publish RefCodec.dumps 0 (["a"; "b"], [])
             (publish RefCodec.dumps 1 (["c"], []) empty_world).1).1 ∧
  redis (publish RefCodec.dumps 1 (["c"], [])
           (publish RefCodec.dumps 0 (["a"; "b"], []) empty_world).1).1
    !! rank_key 0 = Some (RefCodec.dumps (["a"; "b"], [])) ∧
  redis (publish RefCodec.dumps 1 (["c"], [])
           (publish RefCodec.dumps 0 (["a"; "b"], []) empty_world).1).1
    !! rank_key 1 = Some (RefCodec.dumps (["c"], [])) ∧
  redis (publish RefCodec.dumps 0 (["c"], [])
           (publish RefCodec.dumps 0 (["a"; "b"], []) empty_world).1).1 =
    redis (publish RefCodec.dumps 0 (["c"], []) empty_world).1.
Proof.
  apply (publishes_commute RefCodec.dumps 0 1 (["a"; "b"], []) (["c"], []) empty_world).
  lia.
Defined.


Lemma best_is_one_of_the_rounds_witness :
  em (80 # 100)%Q ∈ [em (80 # 100)%Q; em (79 # 100)%Q].
Proof.
  exact (best_is_one_of_the_rounds [em (80 # 100)%Q; em (79 # 100)%Q]
           (Some (em (80 # 100)%Q)) eq_refl).
Defined.



Lemma single_metric_tie_goes_to_last_witness :
  select_best ((λ u, [("em", u)]) <$> ([(80 # 100)%Q; (1 # 2)%Q] ++ [(4 # 5)%Q])) =
    inr (Some [("em", (4 # 5)%Q)]).
Proof.
  apply (single_metric_tie_goes_to_last "em" [(80 # 100)%Q; (1 # 2)%Q] (4 # 5)%Q).
  repeat constructor; unfold Qle; simpl; lia.
Defined.

Lemma gap_folds_before k :
  k < 2 → ∃ ms, gap_folds k = inr ms ∧ select_best ms = inr (Some (ten_bests k)).
Proof.
  intros Hk. destruct k as [|[|k]]; [| |lia]; eexists; split; reflexivity.
Defined.

Lemma fold_without_round_stops_rank0_witness :
  train fmt_ratio "ynat" 0 gap_folds =
    ((seq 0 2 ≫= fold_events fmt_ratio "ynat" 0 ten_bests) ++
       [SaveModel (fold_dir 2); WriteText (result_path "ynat" 2) []],
     inl AttributeError).
Proof.
  assert (2 < n_splits) as Hlt by (unfold n_splits; lia).
  exact (fold_without_round_stops_rank0 fmt_ratio "ynat" gap_folds ten_bests 2
           Hlt gap_folds_before eq_refl).
Defined.

Lemma gap_folds_go i :
  i < n_splits → ∃ ms ob, gap_folds i = inr ms ∧ select_best ms = inr ob.
Proof.
  intros _. unfold gap_folds. destruct (decide (i = 2)); do 2 eexists; split; reflexivity.
Defined.

Lemma other_ranks_go_through_witness :
  (train fmt_ratio "ynat" 1 gap_folds).1 = SaveModel ∘ fold_dir <$> seq 0 n_splits ∧
  ∀ ms, gap_folds 9 = inr ms →
        (train fmt_ratio "ynat" 1 gap_folds).2 = select_best ms.
Proof.
  apply (other_ranks_go_through fmt_ratio "ynat" 1 gap_folds); [lia|exact gap_folds_go].
Defined.

Lemma successful_run_log_witness :
  train fmt_ratio "ynat" 0 ten_folds =
    (seq 0 n_splits ≫=
       (λ i, SaveModel (fold_dir i) ::
             (if decide (0 = 0)%Z
              then [WriteText (result_path "ynat" i) (result_line fmt_ratio <$> ten_bests i)]
              else [])),
     inr (Some (ten_bests 9))).
Proof.
  exact (successful_run_log fmt_ratio "ynat" 0 ten_folds ten_bests ten_folds_ok).
Defined.
